(** * Sound-Math: the chord detection pipeline of [ChordDetector]

    A shallow embedding of [client/src/lib/audio/ChordDetector.ts] (the
    weighted-scoring variant): the silence test, the spectrum peak finder,
    the note mapper and the chord matcher, followed by the properties the
    specification states about them.  Two neighbours of the detector are
    embedded as well: [detectDominantFrequency] of the audio processor and
    the chord history kept by the audio context.

    Modelling conventions.
    - A JavaScript [number] is a value of [num]: a real number, one of the
      two infinities, or NaN.  Arithmetic on finite values is exact real
      arithmetic: the rounding and the overflow of IEEE doubles are not
      modelled, and neither is the sign of zero (no result of the detector
      depends on it: wherever a zero divisor can occur, both signs lead to
      the same outcome).
    - [undefined] is [None]: a note name read past the end of the name
      table, an array element read out of range.
    - A [Uint8Array] is a list of [Z]; a store wraps modulo 256.
    - A thrown [TypeError] is the [Throw] result. *)

From Stdlib Require Import Reals Lra Lia ZArith List String Ascii Bool.
Import ListNotations.
Open Scope string_scope.
Open Scope list_scope.

(** ** JavaScript numbers *)

Module JsNum.

Inductive num : Type :=
| Fin (r : R)
| PInf
| NInf
| NaN.

Definition Rltb (a b : R) : bool := if Rlt_dec a b then true else false.
Definition Rleb (a b : R) : bool := if Rle_dec a b then true else false.
Definition Reqb (a b : R) : bool := if Req_dec_T a b then true else false.

(** [a < b], [a <= b] and their mirror images; every comparison with NaN is
    false. *)
Definition ltb (a b : num) : bool :=
  match a, b with
  | NaN, _ | _, NaN => false
  | Fin x, Fin y => Rltb x y
  | NInf, NInf => false
  | NInf, _ => true
  | _, NInf => false
  | PInf, _ => false
  | Fin _, PInf => true
  end.

Definition leb (a b : num) : bool :=
  match a, b with
  | NaN, _ | _, NaN => false
  | Fin x, Fin y => Rleb x y
  | NInf, _ => true
  | _, PInf => true
  | PInf, _ => false
  | Fin _, NInf => false
  end.

Definition gtb (a b : num) : bool := ltb b a.
Definition geb (a b : num) : bool := leb b a.

Definition neg (a : num) : num :=
  match a with
  | Fin x => Fin (- x)
  | PInf => NInf
  | NInf => PInf
  | NaN => NaN
  end.

Definition add (a b : num) : num :=
  match a, b with
  | NaN, _ | _, NaN => NaN
  | Fin x, Fin y => Fin (x + y)
  | PInf, NInf | NInf, PInf => NaN
  | PInf, _ | _, PInf => PInf
  | NInf, _ | _, NInf => NInf
  end.

Definition sub (a b : num) : num := add a (neg b).

(** The infinity that has the sign of [x] times the sign of [pos]; NaN when
    [x] is zero. *)
Definition signed_inf (pos : bool) (x : R) : num :=
  if Rltb 0 x then (if pos then PInf else NInf)
  else if Rltb x 0 then (if pos then NInf else PInf)
  else NaN.

Definition mul (a b : num) : num :=
  match a, b with
  | NaN, _ | _, NaN => NaN
  | Fin x, Fin y => Fin (x * y)
  | Fin x, PInf | PInf, Fin x => signed_inf true x
  | Fin x, NInf | NInf, Fin x => signed_inf false x
  | PInf, PInf | NInf, NInf => PInf
  | PInf, NInf | NInf, PInf => NInf
  end.

Definition div (a b : num) : num :=
  match a, b with
  | NaN, _ | _, NaN => NaN
  | Fin x, Fin y => if Reqb y 0 then signed_inf true x else Fin (x / y)
  | Fin _, _ => Fin 0
  | PInf, Fin y => if Rltb y 0 then NInf else PInf
  | NInf, Fin y => if Rltb y 0 then PInf else NInf
  | _, _ => NaN
  end.

(** Truncation toward zero, and the [%] operator (the result has the sign of
    the dividend). *)
Definition Ztrunc (x : R) : Z := if Rltb x 0 then Zceil x else Zfloor x.

Definition rem (a b : num) : num :=
  match a, b with
  | NaN, _ | _, NaN => NaN
  | PInf, _ | NInf, _ => NaN
  | Fin x, Fin y => if Reqb y 0 then NaN else Fin (x - y * IZR (Ztrunc (x / y)))
  | Fin x, _ => Fin x
  end.

Definition Math_abs (a : num) : num :=
  match a with
  | Fin x => Fin (Rabs x)
  | PInf | NInf => PInf
  | NaN => NaN
  end.

Definition Math_max (a b : num) : num :=
  match a, b with
  | NaN, _ | _, NaN => NaN
  | _, _ => if ltb a b then b else a
  end.

Definition Math_min (a b : num) : num :=
  match a, b with
  | NaN, _ | _, NaN => NaN
  | _, _ => if ltb b a then b else a
  end.

Definition Math_floor (a : num) : num :=
  match a with
  | Fin x => Fin (IZR (Zfloor x))
  | _ => a
  end.

(** [Math.round] rounds to the nearest integer, halves upward. *)
Definition Math_round (a : num) : num :=
  match a with
  | Fin x => Fin (IZR (Zfloor (x + 1 / 2)))
  | _ => a
  end.

Definition Math_exp (a : num) : num :=
  match a with
  | Fin x => Fin (exp x)
  | PInf => PInf
  | NInf => Fin 0
  | NaN => NaN
  end.

Definition Math_log2 (a : num) : num :=
  match a with
  | Fin x => if Rltb x 0 then NaN else if Reqb x 0 then NInf else Fin (ln x / ln 2)
  | PInf => PInf
  | NInf => NaN
  | NaN => NaN
  end.

Definition is_int (y : R) : bool := Reqb (IZR (Zfloor y)) y.
Definition is_odd_int (y : R) : bool := is_int y && Z.odd (Zfloor y).

(** [Math.pow]: [Rpower x y] is [exp (y * ln x)]. *)
Definition Math_pow (a b : num) : num :=
  match b with
  | NaN => NaN
  | Fin y =>
      if Reqb y 0 then Fin 1 else
      match a with
      | NaN => NaN
      | PInf => if Rltb 0 y then PInf else Fin 0
      | NInf => if Rltb 0 y then (if is_odd_int y then NInf else PInf) else Fin 0
      | Fin x =>
          if Rltb 0 x then Fin (Rpower x y)
          else if Reqb x 0 then (if Rltb 0 y then Fin 0 else PInf)
          else if is_int y
               then Fin ((if Z.odd (Zfloor y) then -1 else 1) * Rpower (- x) y)
               else NaN
      end
  | PInf | NInf =>
      match Math_abs a with
      | NaN => NaN
      | m => if ltb (Fin 1) m then (match b with PInf => PInf | _ => Fin 0 end)
             else if ltb m (Fin 1) then (match b with PInf => Fin 0 | _ => PInf end)
             else NaN
      end
  end.

Definition of_Z (z : Z) : num := Fin (IZR z).

(** A Uint8Array element, or [undefined] converted to a number (NaN). *)
Definition of_elem (o : option Z) : num :=
  match o with
  | Some z => of_Z z
  | None => NaN
  end.

(** An own property of an array at a numeric key: the key has to be a
    non-negative integer below the length. *)
Definition index {A : Type} (l : list A) (i : num) : option A :=
  match i with
  | Fin x => if is_int x && Z.leb 0 (Zfloor x)
             then nth_error l (Z.to_nat (Zfloor x)) else None
  | _ => None
  end.

End JsNum.

Import JsNum.

Declare Scope js_scope.
Delimit Scope js_scope with js.
Bind Scope js_scope with num.
Infix "+" := add : js_scope.
Infix "-" := sub : js_scope.
Infix "*" := mul : js_scope.
Infix "/" := div : js_scope.
Infix "%%" := rem (at level 40, left associativity) : js_scope.
Infix "<?" := ltb : js_scope.
Infix "<=?" := leb : js_scope.
Infix ">?" := gtb : js_scope.
Infix ">=?" := geb : js_scope.

(** ** Strings, arrays and objects *)

Module Js.

(** [s.includes(c)] for a one-character needle. *)
Fixpoint includes_char (c : ascii) (s : string) : bool :=
  match s with
  | EmptyString => false
  | String d rest => Ascii.eqb d c || includes_char c rest
  end.

(** [s.split(c)]: always at least one piece. *)
Fixpoint split_char (c : ascii) (s : string) : list string :=
  match s with
  | EmptyString => [EmptyString]
  | String d rest =>
      if Ascii.eqb d c then EmptyString :: split_char c rest
      else match split_char c rest with
           | piece :: pieces => String d piece :: pieces
           | [] => [String d EmptyString]
           end
  end.

Definition slash : ascii := "/"%char.

(** [l.join(sep)]. *)
Fixpoint join (sep : string) (l : list string) : string :=
  match l with
  | [] => ""
  | [x] => x
  | x :: rest => (x ++ sep ++ join sep rest)%string
  end.

(** [Array.from(new Set(l))]: the first occurrence of every string, in
    order. *)
Fixpoint set_of (seen l : list string) : list string :=
  match l with
  | [] => []
  | x :: rest =>
      if List.existsb (String.eqb x) seen then set_of seen rest
      else x :: set_of (x :: seen) rest
  end.

(** [l.filter(Boolean)] on an array of strings and [undefined]. *)
Fixpoint filter_truthy (l : list (option string)) : list string :=
  match l with
  | [] => []
  | Some s :: rest => if String.eqb s "" then filter_truthy rest else s :: filter_truthy rest
  | None :: rest => filter_truthy rest
  end.

(** [x || ''] for a string or [undefined]. *)
Definition or_empty (o : option string) : string :=
  match o with
  | Some s => s
  | None => ""
  end.

(** Typed-array and array reads at an integer index: [undefined] outside
    the bounds. *)
Definition get {A : Type} (l : list A) (i : Z) : option A :=
  if Z.ltb i 0 then None else nth_error l (Z.to_nat i).

(** The integers [a, a+1, ..., b-1]. *)
Definition range (a b : Z) : list Z :=
  map (fun k => (a + Z.of_nat k)%Z) (seq 0 (Z.to_nat (b - a))).

(** [arr.sort(cmp)] is a stable sort.  [after x y] says that the comparator
    is positive at [(x, y)], so that [x] has to come after [y]. *)
Section Sort.
Context {A : Type} (after : A -> A -> bool).

Fixpoint insert (x : A) (l : list A) : list A :=
  match l with
  | [] => [x]
  | y :: rest => if after x y then y :: insert x rest else x :: l
  end.

Definition sort (l : list A) : list A := fold_right insert [] l.
End Sort.

(** Property keys that are array indices: canonical decimal numerals below
    2^32 - 1. *)
Definition digit_of (c : ascii) : option N :=
  let n := N_of_ascii c in
  if (N.leb 48 n && N.leb n 57)%bool then Some (n - 48)%N else None.

Fixpoint parse_digits (acc : N) (s : string) : option N :=
  match s with
  | EmptyString => Some acc
  | String c rest =>
      match digit_of c with
      | Some d => parse_digits (acc * 10 + d)%N rest
      | None => None
      end
  end.

Definition array_index (s : string) : option N :=
  match s with
  | EmptyString => None
  | String c rest =>
      if (Ascii.eqb c "0"%char && negb (String.eqb rest ""))%bool then None
      else match parse_digits 0 s with
           | Some n => if N.ltb n 4294967295 then Some n else None
           | None => None
           end
  end.

Definition is_array_index (s : string) : bool :=
  match array_index s with Some _ => true | None => false end.

Definition index_after {A : Type} (x y : string * A) : bool :=
  match array_index (fst x), array_index (fst y) with
  | Some n, Some m => N.ltb m n
  | _, _ => false
  end.

(** [Object.entries(o)] for an object literal written with the properties
    [o], in source order: own property keys are enumerated with the array
    indices first, in ascending numeric order, and then the other strings in
    creation order. *)
Definition Object_entries {A : Type} (o : list (string * A)) : list (string * A) :=
  sort index_after (filter (fun kv => is_array_index (fst kv)) o)
  ++ filter (fun kv => negb (is_array_index (fst kv))) o.

(** [o[key]] for such an object. *)
Fixpoint lookup {A : Type} (o : list (string * A)) (key : string) : option A :=
  match o with
  | [] => None
  | (k, v) :: rest => if String.eqb k key then Some v else lookup rest key
  end.

Inductive result (A : Type) : Type :=
| Ok (a : A)
| Throw.
Arguments Ok {A} a.
Arguments Throw {A}.

End Js.

Import Js.

(** ** The detector *)

Module ChordDetector.

Open Scope R_scope.

Record ChordNote : Type := {
  name : option string;
  octave : num;
  frequency : num
}.

Record Chord : Type := {
  chord_name : option string;
  chord_formula : string;
  notes : list ChordNote;
  frequencies : list num
}.

Record Peak : Type := {
  peak_frequency : num;
  magnitude : num
}.

(** The reference frequencies of octave 4 (A4 = 440 Hz). *)
Definition NOTE_FREQUENCIES : list (string * R) :=
  [ ("C", 261.63); ("C#", 277.18); ("Db", 277.18); ("D", 293.66);
    ("D#", 311.13); ("Eb", 311.13); ("E", 329.63); ("F", 349.23);
    ("F#", 369.99); ("Gb", 369.99); ("G", 392.00); ("G#", 415.30);
    ("Ab", 415.30); ("A", 440.00); ("A#", 466.16); ("Bb", 466.16);
    ("B", 493.88) ].

(** The chord table, in the order in which the object literal is written. *)
Definition CHORD_FORMULAS : list (string * list string) :=
  [ ("", ["1"; "3"; "5"]);
    ("m", ["1"; "b3"; "5"]);
    ("7", ["1"; "3"; "5"; "b7"]);
    ("maj7", ["1"; "3"; "5"; "7"]);
    ("m7", ["1"; "b3"; "5"; "b7"]);
    ("dim", ["1"; "b3"; "b5"]);
    ("aug", ["1"; "3"; "#5"]);
    ("sus4", ["1"; "4"; "5"]);
    ("sus2", ["1"; "2"; "5"]);
    ("6", ["1"; "3"; "5"; "6"]);
    ("m6", ["1"; "b3"; "5"; "6"]) ].

Definition emptyChord : Chord :=
  {| chord_name := Some ""; chord_formula := ""; notes := []; frequencies := [] |}.

(** *** isDataMostlySilent *)

Definition isDataMostlySilent (frequencyData : list Z) : bool :=
  let threshold := Fin 10 in
  let sum := fold_left (fun s v => (s + of_Z v)%js) frequencyData (Fin 0) in
  let average := (sum / of_Z (Z.of_nat (List.length frequencyData)))%js in
  (average <? threshold)%js.

(** *** findFrequencyPeaks *)

Definition windowSize : Z := 3.

(** The smoothed copy: zero outside [windowSize, length - windowSize), the
    floor of the mean of the seven surrounding bins inside, stored into a
    Uint8Array. *)
Definition smoothedAt (frequencyData : list Z) (i : Z) : Z :=
  if (Z.leb windowSize i && Z.ltb i (Z.of_nat (List.length frequencyData) - windowSize))%bool
  then
    let sum := fold_left (fun s j => (s + match get frequencyData j with
                                          | Some v => v | None => 0 end)%Z)
                         (range (i - windowSize) (i + windowSize + 1)) 0%Z in
    ((sum / (windowSize * 2 + 1)) mod 256)%Z
  else 0%Z.

Definition smooth (frequencyData : list Z) : list Z :=
  map (smoothedAt frequencyData) (range 0 (Z.of_nat (List.length frequencyData))).

Definition getThreshold (minBin : num) (bin : num) : num :=
  (Fin 15 + (Fin 30 * Math_exp (neg bin / (minBin * Fin 2))))%js.

Definition isCandidate (smoothedData : list Z) (minBin : num) (i : Z) : bool :=
  let threshold := getThreshold minBin (of_Z i) in
  ((of_elem (get smoothedData i) >? threshold)%js
   && (of_elem (get smoothedData i) >? of_elem (get smoothedData (i - 1)))%js
   && (of_elem (get smoothedData i) >? of_elem (get smoothedData (i + 1)))%js)%bool.

(** The strongest raw bin among [i-1, i, i+1], starting from the smoothed
    value at [i]. *)
Definition refineStep (frequencyData : list Z) (st : Z * num) (j : Z) : Z * num :=
  if (of_elem (get frequencyData j) >? snd st)%js
  then (j, of_elem (get frequencyData j))
  else st.

Definition refinePeak (frequencyData smoothedData : list Z) (i : Z) : Z * num :=
  fold_left (refineStep frequencyData) (range (i - 1) (i + 2))
            (i, of_elem (get smoothedData i)).

(** Parabolic interpolation around [peakBin], limited to half a bin. *)
Definition peakOffset (frequencyData : list Z) (peakBin : Z) : num :=
  let alpha := of_elem (get frequencyData (peakBin - 1)) in
  let beta := of_elem (get frequencyData peakBin) in
  let gamma := of_elem (get frequencyData (peakBin + 1)) in
  let offset := (Fin 0.5 * (alpha - gamma) / (alpha - Fin 2 * beta + gamma))%js in
  Math_max (Fin (-0.5)) (Math_min (Fin 0.5) offset).

Definition semitoneDistance (peakFrequency refinedFrequency : num) : num :=
  let freqRatio := (peakFrequency / refinedFrequency)%js in
  Math_abs (Fin 12 * Math_log2 freqRatio)%js.

(** The scan of the accepted peaks for one candidate: the first peak less
    than a semitone away absorbs the candidate (and takes its frequency and
    magnitude when the candidate is stronger); the flag is [farEnough]. *)
Fixpoint absorb (peaks : list Peak) (refinedFrequency peakValue : num)
  : list Peak * bool :=
  match peaks with
  | [] => ([], true)
  | peak :: rest =>
      if (semitoneDistance (peak_frequency peak) refinedFrequency <? Fin 1)%js
      then ((if (peakValue >? magnitude peak)%js
             then {| peak_frequency := refinedFrequency; magnitude := peakValue |}
             else peak) :: rest, false)
      else let (rest', farEnough) := absorb rest refinedFrequency peakValue in
           (peak :: rest', farEnough)
  end.

(** One iteration of the first pass.  ([getMinPeakDistance] is called at
    this point in the source, but its result is not used.) *)
Definition candidateStep (frequencyData smoothedData : list Z) (binSize minBin : num)
           (peaks : list Peak) (i : Z) : list Peak :=
  if isCandidate smoothedData minBin i then
    let (peakBin, peakValue) := refinePeak frequencyData smoothedData i in
    let refinedFrequency := ((of_Z peakBin + peakOffset frequencyData peakBin) * binSize)%js in
    let (peaks', farEnough) := absorb peaks refinedFrequency peakValue in
    if farEnough
    then peaks' ++ [{| peak_frequency := refinedFrequency; magnitude := peakValue |}]
    else peaks'
  else peaks.

(** The first pass: [for (let i = minBin; i < Math.min(List.length - 1, maxBin);
    i++)].  The body runs only when both ends are finite ([minBin] is never
    minus infinity: 80 / binSize is not), from the integer [minBin] up to
    the last integer below the bound. *)
Definition firstPass (frequencyData : list Z) (binSize minBin maxBin : num) : list Peak :=
  let smoothedData := smooth frequencyData in
  match minBin, Math_min (of_Z (Z.of_nat (List.length frequencyData) - 1)) maxBin with
  | Fin lo, Fin hi =>
      fold_left (candidateStep frequencyData smoothedData binSize minBin)
                (range (Zfloor lo) (Zceil hi)) []
  | _, _ => []
  end.

(** [Math.abs(ratio - 1) < 0.03] for one of the multiples 2, 3, 4. *)
Definition isHarmonicOf (strongerPeak peak : Peak) : bool :=
  List.existsb (fun harmonic =>
             let harmonicFreq := (peak_frequency strongerPeak * of_Z harmonic)%js in
             let ratio := (peak_frequency peak / harmonicFreq)%js in
             (Math_abs (ratio - Fin 1) <? Fin 0.03)%js)
          (range 2 5).

(** The second pass over the peaks sorted by magnitude. *)
Fixpoint filterHarmonics (peaks filteredPeaks : list Peak) (peakCount : num) : list Peak :=
  match peaks with
  | [] => filteredPeaks
  | peak :: rest =>
      if List.existsb (fun strongerPeak => isHarmonicOf strongerPeak peak) filteredPeaks
      then filterHarmonics rest filteredPeaks peakCount
      else
        let filteredPeaks' := filteredPeaks ++ [peak] in
        if (of_Z (Z.of_nat (List.length filteredPeaks')) >=? peakCount)%js
        then filteredPeaks'
        else filterHarmonics rest filteredPeaks' peakCount
  end.

(** [peaks.sort((a, b) => b.magnitude - a.magnitude)]. *)
Definition byMagnitude (a b : Peak) : bool :=
  (magnitude b - magnitude a >? Fin 0)%js.

Definition findFrequencyPeaks (frequencyData : list Z) (sampleRate fftSize peakCount : num)
  : list num :=
  let binSize := (sampleRate / fftSize)%js in
  let minBin := Math_floor (Fin 80 / binSize)%js in
  let maxBin := Math_floor (Fin 1200 / binSize)%js in
  let peaks := firstPass frequencyData binSize minBin maxBin in
  let sorted := sort byMagnitude peaks in
  let filteredPeaks := filterHarmonics sorted [] peakCount in
  map peak_frequency filteredPeaks.

(** *** findClosestNote *)

Definition noteNames : list string :=
  ["A"; "A#/Bb"; "B"; "C"; "C#/Db"; "D"; "D#/Eb"; "E"; "F"; "F#/Gb"; "G"; "G#/Ab"].

Definition unknownNote : ChordNote :=
  {| name := Some "Unknown"; octave := Fin 0; frequency := Fin 0 |}.

Definition findClosestNote (frequency : num) : ChordNote :=
  if (frequency <=? Fin 0)%js then unknownNote
  else
    let a4 := Fin 440 in
    let halfStepRatio := Math_pow (Fin 2) (Fin 1 / Fin 12)%js in
    let exactHalfSteps := (Fin 12 * Math_log2 (frequency / a4))%js in
    let roundedHalfSteps := Math_round exactHalfSteps in
    let closestFrequency := (a4 * Math_pow halfStepRatio roundedHalfSteps)%js in
    let octave := Math_floor ((roundedHalfSteps + Fin 57) / Fin 12)%js in
    let noteIndex := (((roundedHalfSteps + Fin 57) %% Fin 12 + Fin 12) %% Fin 12)%js in
    let noteName := index noteNames noteIndex in
    {| name := noteName; octave := octave; frequency := closestFrequency |}.

(** *** calculateChordNotes *)

Definition sharpNames : list string :=
  ["C"; "C#"; "D"; "D#"; "E"; "F"; "F#"; "G"; "G#"; "A"; "A#"; "B"].

Definition intervalToSemitones : list (string * Z) :=
  [ ("1", 0); ("b2", 1); ("2", 2); ("b3", 3); ("3", 4); ("4", 5);
    ("b5", 6); ("5", 7); ("#5", 8); ("6", 9); ("b7", 10); ("7", 11) ]%Z.

(** [s.split('/')[0]]. *)
Definition firstSpelling (s : string) : string := hd s (split_char slash s).

(** [s.includes('/') ? s.split('/') : [s]]. *)
Definition variantsOf (s : string) : list string :=
  if includes_char slash s then split_char slash s else [s].

(** [noteNames.findIndex(note => note === root)]; [None] is -1. *)
Fixpoint findIndex (l : list string) (root : string) (i : Z) : option Z :=
  match l with
  | [] => None
  | x :: rest => if String.eqb x root then Some i else findIndex rest root (i + 1)
  end.

Definition calculateChordNotes (rootNote : string) (formula : list string)
  : list (option string) :=
  if String.eqb rootNote "" then []
  else
    let root := if includes_char slash rootNote then firstSpelling rootNote else rootNote in
    match findIndex sharpNames root 0 with
    | None => []
    | Some rootIndex =>
        map (fun interval =>
               match lookup intervalToSemitones interval with
               | Some semitones => get sharpNames (Z.rem (rootIndex + semitones) 12)
               | None => None
               end)
            formula
    end.

(** *** identifyChord *)

Record NoteInfo : Type := {
  info_name : option string;
  info_frequency : num;
  weight : num
}.

Record ChordMatch : Type := {
  match_name : string;
  match_formula : string
}.

Definition noteInfoOf (note : ChordNote) : NoteInfo :=
  {| info_name := name note;
     info_frequency := frequency note;
     weight := (Fin 1 / Math_max (frequency note) (Fin 80))%js |}.

(** [noteInfo.sort((a, b) => b.weight - a.weight)]. *)
Definition byWeight (a b : NoteInfo) : bool :=
  (weight b - weight a >? Fin 0)%js.

(** [expectedNotes.includes(variant)]. *)
Definition includes (l : list (option string)) (s : string) : bool :=
  List.existsb (fun e => match e with
                         | Some x => String.eqb x s
                         | None => false
                         end) l.

(** One detected note against the expected notes of a template: does one
    of its spellings occur? *)
Definition noteMatched (expectedNotes : list (option string)) (note : option string) : bool :=
  List.existsb (includes expectedNotes) (variantsOf (or_empty note)).

Definition scoreStep (expectedNotes : list (option string))
           (st : num * nat) (info : NoteInfo) : num * nat :=
  if noteMatched expectedNotes (info_name info)
  then ((fst st + weight info * Fin 2)%js, S (snd st))
  else ((fst st - weight info * Fin 0.5)%js, snd st).

Definition essentialIntervals : list string := ["1"; "3"; "b3"; "5"].

(** Is the note of an interval of the template absent from the detected
    notes?  Only the essential intervals count. *)
Definition isMissingEssential (root : string) (baseNotes : list (option string))
           (interval : string) : bool :=
  List.existsb (String.eqb interval) essentialIntervals
  && let noteForInterval := get (calculateChordNotes root [interval]) 0 in
     negb (List.existsb
             (fun note =>
                match noteForInterval with
                | Some (Some n) =>
                    negb (String.eqb n "")
                    && List.existsb (String.eqb n) (variantsOf (or_empty note))
                | _ => false
                end)
             baseNotes).

Definition Best : Type := num * string * string.

Definition initialBest : Best := (Fin (-1), "", "").

Definition bestScore (b : Best) : num := fst (fst b).

(** The score of one (root, template) candidate and the number of notes it
    matches. *)
Definition scoreOf (noteInfo : list NoteInfo) (root : string) (formula : list string)
  : num * nat :=
  let baseNotes := map info_name noteInfo in
  let expectedNotes := calculateChordNotes root formula in
  let '(score, matchedNotes) := fold_left (scoreStep expectedNotes) noteInfo (Fin 0, 0%nat) in
  let missingEssential :=
    List.length (filter (isMissingEssential root baseNotes) formula) in
  ((score - of_Z (Z.of_nat missingEssential) * Fin 2)%js, matchedNotes).

Definition tryTemplate (noteInfo : list NoteInfo) (root : string)
           (best : Best) (entry : string * list string) : Best :=
  let '(suffix, formula) := entry in
  let '(score, matchedNotes) := scoreOf noteInfo root formula in
  let minRequiredMatches := Math_min (Fin 2) (of_Z (Z.of_nat (List.length formula))) in
  if ((of_Z (Z.of_nat matchedNotes) >=? minRequiredMatches)%js
      && (score >? bestScore best)%js)%bool
  then (score, (root ++ suffix)%string, join "-" formula)
  else best.

Definition tryRoot (noteInfo : list NoteInfo) (best : Best) (rootNote : string) : Best :=
  fold_left (fun best root =>
               fold_left (tryTemplate noteInfo root) (Object_entries CHORD_FORMULAS) best)
            (variantsOf rootNote) best.

Definition sortedInfo (notes : list ChordNote) : list NoteInfo :=
  sort byWeight (map noteInfoOf notes).

Definition rootsToTry (noteInfo : list NoteInfo) : list string :=
  let baseNotes := map info_name noteInfo in
  let potentialRoots := map info_name (firstn 3 noteInfo) ++ skipn 3 baseNotes in
  set_of [] (filter_truthy potentialRoots).

Definition search (notes : list ChordNote) : Best :=
  let noteInfo := sortedInfo notes in
  fold_left (tryRoot noteInfo) (rootsToTry noteInfo) initialBest.

Definition identifyChord (notes : list ChordNote) : result ChordMatch :=
  match notes with
  | [] => Ok {| match_name := ""; match_formula := "" |}
  | [note] =>
      match name note with
      | Some s => Ok {| match_name := firstSpelling s; match_formula := "1" |}
      | None => Throw
      end
  | first :: _ =>
      let '(bestMatchScore, bestMatchName, bestMatchFormula) := search notes in
      if (bestMatchScore >? Fin 0)%js
      then Ok {| match_name := bestMatchName; match_formula := bestMatchFormula |}
      else
        let noteName := or_empty (name first) in
        let cleanName :=
          if includes_char slash noteName then firstSpelling noteName else noteName in
        Ok {| match_name := cleanName; match_formula := "1" |}
  end.

(** *** detectChord *)

Definition defaultPeakCount : num := Fin 6.

Definition detectChord (frequencyData : list Z) (sampleRate fftSize : num) : result Chord :=
  if isDataMostlySilent frequencyData then Ok emptyChord
  else
    let peaks := findFrequencyPeaks frequencyData sampleRate fftSize defaultPeakCount in
    if Nat.ltb (List.length peaks) 2 then
      let notes := map findClosestNote peaks in
      Ok {| chord_name := match notes with
                          | first :: _ => name first
                          | [] => Some ""
                          end;
            chord_formula := "";
            notes := notes;
            frequencies := peaks |}
    else
      let notes := map findClosestNote peaks in
      match identifyChord notes with
      | Ok chord =>
          Ok {| chord_name := Some (match_name chord);
                chord_formula := match_formula chord;
                notes := notes;
                frequencies := peaks |}
      | Throw => Throw
      end.

End ChordDetector.

Import ChordDetector.

(** ** The audio processor: the dominant frequency *)

Module AudioProcessor.

(** The scan for the strongest bin: a bin replaces the running maximum
    only when it is strictly greater, so the first of several equal maxima
    is kept. *)
Fixpoint scanMax (frequencyData : list Z) (i maxIndex maxValue : Z) : Z * Z :=
  match frequencyData with
  | [] => (maxIndex, maxValue)
  | v :: rest =>
      if Z.ltb maxValue v then scanMax rest (i + 1) i v
      else scanMax rest (i + 1) maxIndex maxValue
  end.

(** [x || d] for a number or [undefined]: 0 and NaN are falsy. *)
Definition orDefault (x : option num) (d : num) : num :=
  match x with
  | Some (Fin r) => if Reqb r 0 then d else Fin r
  | Some NaN => d
  | Some y => y
  | None => d
  end.

(** [detectDominantFrequency], as a function of the fields it reads: the
    spectrum, the sample rate of the audio context ([None] without a
    context) and the transform size.  [None] is [null]. *)
Definition detectDominantFrequency (frequencyData : list Z)
           (contextSampleRate : option num) (fftSize : num) : option num :=
  match frequencyData with
  | [] => None
  | _ =>
      let '(maxIndex, maxValue) := scanMax frequencyData 0 0 0 in
      if Z.ltb maxValue 10 then None
      else
        let sampleRate := orDefault contextSampleRate (Fin 44100) in
        Some (of_Z maxIndex * sampleRate / (fftSize * Fin 2))%js
  end.

End AudioProcessor.

Import AudioProcessor.

(** ** The audio context: the chord history *)

Module ChordLog.

Record HistoryItem : Type := {
  item_name : string;
  timestamp : string
}.

(** The three pieces of state that the audio processing effect reads and
    writes. *)
Record LogState : Type := {
  chordHistory : list HistoryItem;
  lastDetectedChord : string;
  lastChordTime : num
}.

Definition initialLog : LogState :=
  {| chordHistory := []; lastDetectedChord := ""; lastChordTime := Fin 0 |}.

Section Effect.
Variable formatTime : num -> string.

(** One run of the effect after a detection, as a state transformer:
    [chordName] is [chord.name] and [now] is [performance.now()]. *)
Definition recordChord (st : LogState) (chordName : option string) (now : num) : LogState :=
  match chordName with
  | Some nm =>
      if (negb (String.eqb nm "")
          && negb (String.eqb nm (lastDetectedChord st))
          && (now - lastChordTime st >? Fin 2000)%js)%bool
      then {| chordHistory :=
                firstn 10 ({| item_name := nm; timestamp := formatTime (now / Fin 1000)%js |}
                             :: chordHistory st);
              lastDetectedChord := nm;
              lastChordTime := now |}
      else st
  | None => st
  end.

Definition clearChordHistory (st : LogState) : LogState :=
  {| chordHistory := [];
     lastDetectedChord := lastDetectedChord st;
     lastChordTime := lastChordTime st |}.

Inductive Event : Type :=
| Detected (chordName : option string) (now : num)
| Cleared.

Definition step (st : LogState) (e : Event) : LogState :=
  match e with
  | Detected chordName now => recordChord st chordName now
  | Cleared => clearChordHistory st
  end.

Definition run (events : list Event) : LogState := fold_left step events initialLog.

End Effect.

(** No two neighbours of the list are equal. *)
Fixpoint noRepeat (l : list string) : Prop :=
  match l with
  | a :: (b :: _) as rest => a <> b /\ noRepeat rest
  | _ => True
  end.

End ChordLog.

Import ChordLog.

(** * Statements and test data *)

Section Statements.
Open Scope R_scope.

(** What the note mapper returns at the twelve reference frequencies of
    octave 4. *)
Definition isNote4 (f : R) (nm : string) : Prop :=
  exists fr,
    findClosestNote (Fin f) = {| name := Some nm; octave := Fin 4; frequency := Fin fr |}
    /\ Rabs (fr - f) < 0.01.

(** *** The chord search, flattened

    The candidates of [search] in the order in which the three nested loops
    visit them, and the parts of a candidate's score that depend on the
    note names only. *)

Definition Candidate : Type := string * (string * list string).

Definition candidateRoots (noteInfo : list NoteInfo) : list string :=
  flat_map variantsOf (rootsToTry noteInfo).

Definition candidates (noteInfo : list NoteInfo) : list Candidate :=
  flat_map (fun root => map (pair root) (Object_entries CHORD_FORMULAS))
           (candidateRoots noteInfo).

Definition tryCandidate (noteInfo : list NoteInfo) (best : Best) (c : Candidate) : Best :=
  tryTemplate noteInfo (fst c) best (snd c).

(** The weight of a note as a real number (0 when it is not finite). *)
Definition weightR (info : NoteInfo) : R :=
  match weight info with
  | Fin w => w
  | _ => 0
  end.

Definition totalWeight (noteInfo : list NoteInfo) : R :=
  fold_right (fun info t => weightR info + t) 0 noteInfo.

Definition matchFlags (names : list (option string)) (root : string) (formula : list string)
  : list bool :=
  map (noteMatched (calculateChordNotes root formula)) names.

Definition missingCount (names : list (option string)) (root : string) (formula : list string)
  : nat :=
  List.length (filter (isMissingEssential root names) formula).

(** The sum of [2 * weight] over the matched notes minus [0.5 * weight]
    over the others. *)
Fixpoint scoreSum (flags : list bool) (noteInfo : list NoteInfo) : R :=
  match flags, noteInfo with
  | flag :: flags', info :: rest =>
      (if flag then weightR info * 2 else - (weightR info * 0.5)) + scoreSum flags' rest
  | _, _ => 0
  end.

Definition countTrue (flags : list bool) : nat := List.length (filter (fun b : bool => b) flags).

(** A candidate is a perfect match when every detected note is in the
    template and no essential note of the template is absent. *)
Definition perfect (names : list (option string)) (c : Candidate) : bool :=
  forallb (fun b : bool => b) (matchFlags names (fst c) (snd (snd c)))
  && Nat.eqb (missingCount names (fst c) (snd (snd c))) 0.

(** A candidate is hopeless when it lacks an essential note or matches
    fewer detected notes than required. *)
Definition hopeless (names : list (option string)) (c : Candidate) : bool :=
  Nat.leb 1 (missingCount names (fst c) (snd (snd c)))
  || Nat.ltb (countTrue (matchFlags names (fst c) (snd (snd c))))
             (Nat.min 2 (List.length (snd (snd c)))).

Definition finiteWeights (noteInfo : list NoteInfo) : Prop :=
  Forall (fun info => exists w, weight info = Fin w /\ 0 < w <= 1 / 80) noteInfo.

Definition finiteNote (note : ChordNote) : Prop :=
  exists f, frequency note = Fin f.


Definition candidatesOf (names : list (option string)) : list Candidate :=
  flat_map (fun root => map (pair root) (Object_entries CHORD_FORMULAS))
           (flat_map variantsOf (set_of [] (filter_truthy names))).

(** Frequencies in nondecreasing order. *)
Fixpoint ascending (fs : list R) : Prop :=
  match fs with
  | a :: (b :: _) as rest => a <= b /\ ascending rest
  | _ => True
  end.

(** *** Test notes *)

Definition note (nm : string) (oct : Z) (f : R) : ChordNote :=
  {| name := Some nm; octave := of_Z oct; frequency := Fin f |}.

Definition cMajorTriad : list ChordNote :=
  [note "C" 4 261.63; note "E" 4 329.63; note "G" 4 392.00].

Definition aMinorTriad (fa fc fe : R) : list ChordNote :=
  [note "A" 4 fa; note "C" 5 fc; note "E" 5 fe].

Definition majorFormula : list string := ["1"; "3"; "5"].
Definition minorFormula : list string := ["1"; "b3"; "5"].


(** *** The fallback of the chord matcher *)

(** No (root, template) candidate has a positive score together with the
    required number of matched notes. *)
Definition noPositiveCandidate (notes : list ChordNote) : Prop :=
  forall (root suffix : string) (formula : list string),
    In root (candidateRoots (sortedInfo notes)) ->
    In (suffix, formula) CHORD_FORMULAS ->
    ((fst (scoreOf (sortedInfo notes) root formula) >? Fin 0)%js
     && (of_Z (Z.of_nat (snd (scoreOf (sortedInfo notes) root formula)))
         >=? Math_min (Fin 2) (of_Z (Z.of_nat (List.length formula))))%js)%bool = false.

(** A note of the input whose weight is the greatest. *)
Definition bestWeighted (notes : list ChordNote) (best : ChordNote) : Prop :=
  In best notes
  /\ forall other, In other notes ->
                   (weight (noteInfoOf other) <=? weight (noteInfoOf best))%js = true.

(** The result that the fallback gives for a note. *)
Definition impliedUnison (n : ChordNote) : ChordMatch :=
  {| match_name := firstSpelling (or_empty (name n)); match_formula := "1" |}.

(** D4 above C4, the higher note first. *)
Definition secondDC : list ChordNote := [note "D" 4 293.66; note "C" 4 261.63].

Definition allPairs (roots : list string) : list Candidate :=
  flat_map (fun root => map (pair root) CHORD_FORMULAS) roots.


(** *** The peak finder on integers

    The parts of the first pass that only compare bins. *)

Definition total (frequencyData : list Z) : Z := fold_right Z.add 0%Z frequencyData.

(** The smoothed bin [i] is strictly above both neighbours. *)
Definition localMax (smoothedData : list Z) (i : Z) : bool :=
  match get smoothedData i, get smoothedData (i - 1), get smoothedData (i + 1) with
  | Some a, Some b, Some c => Z.ltb b a && Z.ltb c a
  | _, _, _ => false
  end.

Definition refineStepZ (frequencyData : list Z) (st : Z * Z) (j : Z) : Z * Z :=
  match get frequencyData j with
  | Some v => if Z.ltb (snd st) v then (j, v) else st
  | None => st
  end.

Definition refinePeakZ (frequencyData : list Z) (smoothed : Z) (i : Z) : Z * Z :=
  fold_left (refineStepZ frequencyData) (range (i - 1) (i + 2)) (i, smoothed).

(** At least one semitone apart. *)
Definition separated (f g : num) : bool :=
  (Math_abs (Fin 12 * Math_log2 (f / g)) >=? Fin 1)%js.

(** *** Test spectra: 1024 bins, as for a 2048-point transform *)

(** A peak with a notch around bin 20 over a constant floor. *)
Definition notchedPeak (floor : Z) : list Z :=
  (repeat floor 17 ++ [100; 100; 40; 50; 40; 100; 100] ++ repeat floor 1000)%Z.

(** Two clipped (flat-topped) peaks around bins 13 and 33 over a floor of
    12. *)
Definition clippedPeaks : list Z :=
  (repeat 12 10 ++ repeat 255 7 ++ repeat 12 13 ++ repeat 255 7 ++ repeat 12 987)%Z.

Definition sampleRate44k : num := Fin 44100.
Definition fftSize2048 : num := Fin 2048.
Definition binSize44k : R := 44100 / 2048.


(** *** Statements on the peak finder *)




(** *** Statements on the chord matcher *)

(** The result for a candidate of the search. *)
Definition chordOf (c : Candidate) : ChordMatch :=
  {| match_name := (fst c ++ fst (snd c))%string;
     match_formula := join "-" (snd (snd c)) |}.

(** D, F sharp and A, the middle note under both of its spellings. *)
Definition dMajorTriad : list ChordNote :=
  [note "D" 4 293.66; note "F#/Gb" 4 369.99; note "A" 4 440.00].

End Statements.

(** * Properties *)

Open Scope R_scope.

(** ** Numbers *)

Lemma Rltb_true (a b : R) : a < b -> Rltb a b = true.
Proof. intros H. unfold Rltb. destruct (Rlt_dec a b); [reflexivity | contradiction]. Qed.

Lemma Rltb_false (a b : R) : b <= a -> Rltb a b = false.
Proof. intros H. unfold Rltb. destruct (Rlt_dec a b); [lra | reflexivity]. Qed.

Lemma Rleb_true (a b : R) : a <= b -> Rleb a b = true.
Proof. intros H. unfold Rleb. destruct (Rle_dec a b); [reflexivity | contradiction]. Qed.

Lemma Rleb_false (a b : R) : b < a -> Rleb a b = false.
Proof. intros H. unfold Rleb. destruct (Rle_dec a b); [lra | reflexivity]. Qed.

Lemma Reqb_true (a b : R) : a = b -> Reqb a b = true.
Proof. intros H. unfold Reqb. destruct (Req_dec_T a b); [reflexivity | contradiction]. Qed.

Lemma Reqb_false (a b : R) : a <> b -> Reqb a b = false.
Proof. intros H. unfold Reqb. destruct (Req_dec_T a b); [contradiction | reflexivity]. Qed.

Lemma Rltb_lt (a b : R) : Rltb a b = true -> a < b.
Proof. unfold Rltb. destruct (Rlt_dec a b); [trivial | discriminate]. Qed.

Lemma Rltb_ge (a b : R) : Rltb a b = false -> b <= a.
Proof. unfold Rltb. destruct (Rlt_dec a b); [discriminate | lra]. Qed.

Lemma Rleb_le (a b : R) : Rleb a b = true -> a <= b.
Proof. unfold Rleb. destruct (Rle_dec a b); [trivial | discriminate]. Qed.

Lemma Rabs_le_bounds (a b : R) : Rabs a <= b -> - b <= a <= b.
Proof. unfold Rabs. destruct (Rcase_abs a); lra. Qed.

Lemma div_fin (a b : R) : b <> 0 -> (Fin a / Fin b)%js = Fin (a / b).
Proof. intros H. simpl. now rewrite Reqb_false. Qed.

Lemma is_int_IZR (z : Z) : is_int (IZR z) = true.
Proof. unfold is_int. rewrite ZfloorZ. now apply Reqb_true. Qed.

Lemma index_of_Z {A : Type} (l : list A) (z : Z) :
  (0 <= z)%Z -> index l (Fin (IZR z)) = nth_error l (Z.to_nat z).
Proof.
  intros H. unfold index. rewrite is_int_IZR, ZfloorZ.
  now replace (Z.leb 0 z) with true by (symmetry; apply Z.leb_le; exact H).
Qed.

Lemma Zfloor_div_IZR (a d : Z) : (0 < d)%Z -> Zfloor (IZR a / IZR d) = (a / d)%Z.
Proof.
  intros Hd. apply Zfloor_eq.
  assert (Hd' : 0 < IZR d) by now apply IZR_lt.
  pose proof (Z.div_mod a d ltac:(lia)) as E.
  pose proof (Z.mod_pos_bound a d Hd) as B.
  assert (Ea : IZR a = IZR d * IZR (a / d) + IZR (a mod d)).
  { rewrite <- mult_IZR, <- plus_IZR. now f_equal. }
  assert (B1 : 0 <= IZR (a mod d)) by (apply IZR_le; lia).
  assert (B2 : IZR (a mod d) < IZR d) by (apply IZR_lt; lia).
  replace (IZR a / IZR d) with (IZR (a / d) + IZR (a mod d) / IZR d)
    by (rewrite Ea; field; lra).
  assert (0 <= IZR (a mod d) / IZR d < 1).
  { split.
    - apply Rmult_le_pos; [lra | left; now apply Rinv_0_lt_compat].
    - apply Rmult_lt_reg_r with (IZR d); [lra |].
      unfold Rdiv. rewrite Rmult_assoc, Rinv_l by lra. lra. }
  lra.
Qed.

Lemma Ztrunc_div_IZR (a d : Z) : (0 < d)%Z -> Ztrunc (IZR a / IZR d) = Z.quot a d.
Proof.
  intros Hd. unfold Ztrunc.
  assert (Hd' : 0 < IZR d) by now apply IZR_lt.
  destruct (Z_lt_le_dec a 0) as [Ha | Ha].
  - rewrite Rltb_true.
    + unfold Zceil. replace (- (IZR a / IZR d)) with (IZR (- a) / IZR d)
        by (rewrite opp_IZR; field; lra).
      rewrite Zfloor_div_IZR by lia.
      rewrite <- (Z.opp_involutive a) at 2. rewrite Z.quot_opp_l by lia.
      now rewrite Z.quot_div_nonneg by lia.
    + apply Rmult_lt_reg_r with (IZR d); [lra |].
      unfold Rdiv. rewrite Rmult_assoc, Rinv_l by lra.
      assert (IZR a < 0) by now apply IZR_lt. lra.
  - rewrite Rltb_false.
    + rewrite Zfloor_div_IZR by lia. now rewrite Z.quot_div_nonneg by lia.
    + apply Rmult_le_pos; [now apply IZR_le | left; now apply Rinv_0_lt_compat].
Qed.

Lemma rem_of_Z (a d : Z) :
  (0 < d)%Z -> (Fin (IZR a) %% Fin (IZR d))%js = Fin (IZR (Z.rem a d)).
Proof.
  intros Hd. simpl.
  rewrite Reqb_false by (apply not_0_IZR; lia).
  rewrite Ztrunc_div_IZR by exact Hd.
  f_equal. rewrite <- mult_IZR, <- minus_IZR. f_equal.
  pose proof (Z.quot_rem' a d). lia.
Qed.

Lemma ln_le_mono (x y : R) : 0 < x -> x <= y -> ln x <= ln y.
Proof.
  intros Hx [H | H].
  - left. now apply ln_increasing.
  - subst. lra.
Qed.

Lemma ln2_pos : 0 < ln 2.
Proof. rewrite <- ln_1. apply ln_increasing; lra. Qed.

Lemma ln_pow2 (m : nat) : ln (2 ^ m) = INR m * ln 2.
Proof. apply ln_pow. lra. Qed.

(** ** The note mapper *)

(** The number of half steps from A4 that [findClosestNote] rounds to. *)
Lemma halfSteps_eq (x : R) (k : Z) (m : nat) :
  0 < x -> Z.of_nat m = (2 * k + 19)%Z ->
  2 ^ m <= 2 ^ 20 * x ^ 24 < 2 ^ (m + 2) ->
  Zfloor (12 * (ln x / ln 2) + 1 / 2) = k.
Proof.
  intros Hx Hm [Hlo Hhi]. apply Zfloor_eq.
  pose proof ln2_pos as L.
  assert (P24 : 0 < x ^ 24) by now apply pow_lt.
  assert (P20 : 0 < (2:R) ^ 20) by (apply pow_lt; lra).
  assert (Pm : 0 < (2:R) ^ m) by (apply pow_lt; lra).
  assert (Em : INR m = 2 * IZR k + 19).
  { rewrite INR_IZR_INZ, Hm, plus_IZR, mult_IZR. reflexivity. }
  assert (Elog : ln (2 ^ 20 * x ^ 24) = 20 * ln 2 + 24 * ln x).
  { rewrite ln_mult by assumption. rewrite ln_pow2, ln_pow by assumption.
    simpl INR. lra. }
  apply ln_le_mono in Hlo; [| assumption].
  apply ln_increasing in Hhi; [| apply Rmult_lt_0_compat; assumption].
  rewrite Elog in Hlo, Hhi. rewrite ln_pow2 in Hlo, Hhi.
  rewrite plus_INR in Hhi. simpl INR in Hhi. rewrite Em in Hlo, Hhi.
  set (q := ln x / ln 2).
  assert (Eq : ln x = q * ln 2) by (unfold q; field; lra).
  rewrite Eq in Hlo, Hhi.
  split; nra.
Qed.

(** The retuned frequency, [440 * halfStepRatio ^ k], between two bounds. *)
Lemma retuned_bounds (lo hi : R) (k : Z) (m : nat) :
  0 < lo -> Z.of_nat m = (k + 9)%Z ->
  2 ^ 9 * (lo / 440) ^ 12 < 2 ^ m -> 2 ^ m < 2 ^ 9 * (hi / 440) ^ 12 -> 0 < hi ->
  lo < 440 * Rpower (Rpower 2 (1 / 12)) (IZR k) < hi.
Proof.
  intros Hlo Hm H1 H2 Hhi.
  pose proof ln2_pos as L.
  assert (Em : INR m = IZR k + 9).
  { rewrite INR_IZR_INZ, Hm, plus_IZR. reflexivity. }
  assert (P9 : 0 < (2:R) ^ 9) by (apply pow_lt; lra).
  assert (Pm : 0 < (2:R) ^ m) by (apply pow_lt; lra).
  assert (Key : forall y, 0 < y -> ln (2 ^ 9 * (y / 440) ^ 12) = 9 * ln 2 + 12 * ln (y / 440)).
  { intros y Hy.
    assert (0 < y / 440) by (apply Rdiv_lt_0_compat; lra).
    rewrite ln_mult; [| assumption | now apply pow_lt].
    rewrite ln_pow2, ln_pow by assumption. simpl INR. lra. }
  rewrite Rpower_mult. unfold Rpower.
  assert (Plo : 0 < lo / 440) by (apply Rdiv_lt_0_compat; lra).
  assert (Phi : 0 < hi / 440) by (apply Rdiv_lt_0_compat; lra).
  apply ln_increasing in H1; [| apply Rmult_lt_0_compat; [assumption | now apply pow_lt]].
  apply ln_increasing in H2; [| assumption].
  rewrite Key in H1, H2 by assumption. rewrite ln_pow2, Em in H1, H2.
  set (t := 1 / 12 * IZR k * ln 2).
  assert (T1 : ln (lo / 440) < t) by (unfold t; lra).
  assert (T2 : t < ln (hi / 440)) by (unfold t; lra).
  apply exp_increasing in T1. apply exp_increasing in T2.
  rewrite exp_ln in T1, T2 by assumption.
  split.
  - apply Rmult_lt_reg_r with (/ 440); [lra |]. 
    replace (440 * exp t * / 440) with (exp t) by field. exact T1.
  - apply Rmult_lt_reg_r with (/ 440); [lra |].
    replace (440 * exp t * / 440) with (exp t) by field. exact T2.
Qed.

Lemma halfStepRatio_eq :
  Math_pow (Fin 2) (Fin 1 / Fin 12)%js = Fin (Rpower 2 (1 / 12)).
Proof.
  rewrite div_fin by lra. simpl.
  rewrite Reqb_false by lra. now rewrite Rltb_true by lra.
Qed.

Lemma pow_halfStepRatio (n : Z) :
  Math_pow (Fin (Rpower 2 (1 / 12))) (Fin (IZR n))
  = Fin (Rpower (Rpower 2 (1 / 12)) (IZR n)).
Proof.
  simpl. unfold Reqb. destruct (Req_dec_T (IZR n) 0) as [E | E].
  - rewrite E. unfold Rpower at 1. rewrite Rmult_0_l, exp_0. reflexivity.
  - rewrite Rltb_true; [reflexivity | apply exp_pos].
Qed.

(** What [findClosestNote] computes on a positive finite frequency, with
    [n] the rounded number of half steps from A4. *)
Lemma findClosestNote_fin (r : R) :
  0 < r ->
  let n := Zfloor (12 * (ln (r / 440) / ln 2) + 1 / 2) in
  findClosestNote (Fin r)
  = {| name := nth_error noteNames (Z.to_nat ((n + 57) mod 12));
       octave := Fin (IZR ((n + 57) / 12));
       frequency := Fin (440 * Rpower (Rpower 2 (1 / 12)) (IZR n)) |}.
Proof.
  intros Hr n. unfold findClosestNote.
  assert (Hle : (Fin r <=? Fin 0)%js = false) by (simpl; apply Rleb_false; lra).
  rewrite Hle, halfStepRatio_eq, div_fin by lra.
  assert (Hq : 0 < r / 440) by (apply Rdiv_lt_0_compat; lra).
  assert (Hlog : Math_log2 (Fin (r / 440)) = Fin (ln (r / 440) / ln 2)).
  { simpl. rewrite Rltb_false by lra. now rewrite Reqb_false by lra. }
  rewrite Hlog. cbn [mul Math_round]. fold n.
  rewrite pow_halfStepRatio. cbn [mul add].
  replace (IZR n + 57) with (IZR (n + 57)) by (rewrite plus_IZR; reflexivity).
  rewrite (div_fin _ 12) by lra. cbn [Math_floor].
  rewrite Zfloor_div_IZR by lia.
  rewrite rem_of_Z by lia. cbn [add].
  replace (IZR (Z.rem (n + 57) 12) + 12) with (IZR (Z.rem (n + 57) 12 + 12))
    by (rewrite plus_IZR; reflexivity).
  rewrite rem_of_Z by lia.
  assert (Hmod : Z.rem (Z.rem (n + 57) 12 + 12) 12 = ((n + 57) mod 12)%Z).
  { pose proof (Z.rem_bound_abs (n + 57) 12 ltac:(lia)) as B.
    rewrite Z.rem_mod_nonneg by lia.
    pose proof (Z.quot_rem' (n + 57) 12) as E.
    replace (Z.rem (n + 57) 12 + 12)%Z
      with (n + 57 + (1 - Z.quot (n + 57) 12) * 12)%Z by lia.
    now rewrite Z.mod_add by lia. }
  rewrite Hmod, index_of_Z by (apply Z.mod_pos_bound; lia).
  reflexivity.
Qed.

Lemma reference_note (f : R) (k : Z) (m1 m2 : nat) :
  0.01 < f ->
  Z.of_nat m1 = (2 * k + 19)%Z ->
  2 ^ m1 <= 2 ^ 20 * (f / 440) ^ 24 < 2 ^ (m1 + 2) ->
  Z.of_nat m2 = (k + 9)%Z ->
  2 ^ 9 * ((f - 0.01) / 440) ^ 12 < 2 ^ m2 < 2 ^ 9 * ((f + 0.01) / 440) ^ 12 ->
  exists fr,
    findClosestNote (Fin f)
    = {| name := nth_error noteNames (Z.to_nat ((k + 57) mod 12));
         octave := Fin (IZR ((k + 57) / 12));
         frequency := Fin fr |}
    /\ Rabs (fr - f) < 0.01.
Proof.
  intros Hf.
  assert (F1 : 0 < f) by lra.
  assert (F2 : 0 < f - 0.01) by lra.
  assert (F3 : 0 < f + 0.01) by lra.
  assert (F4 : 0 < f / 440) by (apply Rdiv_lt_0_compat; lra).
  assert (F5 : forall y, f - 0.01 < y < f + 0.01 -> Rabs (y - f) < 0.01).
  { intros y Hy. apply Rabs_def1; lra. }
  clear Hf.
  intros Hm1 H1 Hm2 [H2 H3].
  exists (440 * Rpower (Rpower 2 (1 / 12)) (IZR k)). split.
  - rewrite findClosestNote_fin by exact F1.
    now rewrite (halfSteps_eq (f / 440) k m1 F4 Hm1 H1).
  - apply F5. exact (retuned_bounds (f - 0.01) (f + 0.01) k m2 F2 Hm2 H2 H3 F3).
Qed.

Ltac reference_note k m1 m2 :=
  let fr := fresh "fr" in
  let E := fresh "E" in
  let B := fresh "B" in
  match goal with
  | |- exists _, findClosestNote (Fin ?f) = _ /\ _ =>
      destruct (reference_note f k m1 m2) as [fr [E B]]
  end;
  [ lra | reflexivity | simpl Nat.add; split; lra | reflexivity | split; lra
  | exists fr; split; [rewrite E; reflexivity | exact B] ].

Lemma note_261_63 : isNote4 261.63 "A".
Proof. unfold isNote4. reference_note (-9)%Z 1%nat 0%nat. Qed.

Lemma note_277_18 : isNote4 277.18 "A#/Bb".
Proof. unfold isNote4. reference_note (-8)%Z 3%nat 1%nat. Qed.

Lemma note_293_66 : isNote4 293.66 "B".
Proof. unfold isNote4. reference_note (-7)%Z 5%nat 2%nat. Qed.

Lemma note_311_13 : isNote4 311.13 "C".
Proof. unfold isNote4. reference_note (-6)%Z 7%nat 3%nat. Qed.

Lemma note_329_63 : isNote4 329.63 "C#/Db".
Proof. unfold isNote4. reference_note (-5)%Z 9%nat 4%nat. Qed.

Lemma note_349_23 : isNote4 349.23 "D".
Proof. unfold isNote4. reference_note (-4)%Z 11%nat 5%nat. Qed.

Lemma note_369_99 : isNote4 369.99 "D#/Eb".
Proof. unfold isNote4. reference_note (-3)%Z 13%nat 6%nat. Qed.

Lemma note_392_00 : isNote4 392.00 "E".
Proof. unfold isNote4. reference_note (-2)%Z 15%nat 7%nat. Qed.

Lemma note_415_30 : isNote4 415.30 "F".
Proof. unfold isNote4. reference_note (-1)%Z 17%nat 8%nat. Qed.

Lemma note_440_00 : isNote4 440.00 "F#/Gb".
Proof. unfold isNote4. reference_note 0%Z 19%nat 9%nat. Qed.

Lemma note_466_16 : isNote4 466.16 "G".
Proof. unfold isNote4. reference_note 1%Z 21%nat 10%nat. Qed.

Lemma note_493_88 : isNote4 493.88 "G#/Ab".
Proof. unfold isNote4. reference_note 2%Z 23%nat 11%nat. Qed.

Lemma isNote4_fields (f : R) (nm : string) :
  isNote4 f nm ->
  name (findClosestNote (Fin f)) = Some nm
  /\ octave (findClosestNote (Fin f)) = Fin 4
  /\ exists fr, frequency (findClosestNote (Fin f)) = Fin fr /\ Rabs (fr - f) < 0.01.
Proof.
  intros [fr [E B]]. rewrite E. cbn [name octave frequency].
  repeat split. exists fr. now split.
Qed.

(** C1: at the twelve reference frequencies of octave 4 the note mapper
    returns octave 4 and a retuned frequency within 0.01 Hz of the
    reference, but the name it returns is the entry of the name table nine
    places further on, not the pitch class of the reference: C4 is named
    "A", and 440 Hz is named "F#/Gb" instead of "A". *)
Theorem closestNote_reference_frequencies :
  map (fun kf => name (findClosestNote (Fin (snd kf)))) NOTE_FREQUENCIES
  = [ Some "A"; Some "A#/Bb"; Some "A#/Bb"; Some "B"; Some "C"; Some "C";
      Some "C#/Db"; Some "D"; Some "D#/Eb"; Some "D#/Eb"; Some "E"; Some "F";
      Some "F"; Some "F#/Gb"; Some "G"; Some "G"; Some "G#/Ab" ]
  /\ Forall (fun kf =>
               octave (findClosestNote (Fin (snd kf))) = Fin 4
               /\ exists fr, frequency (findClosestNote (Fin (snd kf))) = Fin fr
                             /\ Rabs (fr - snd kf) < 0.01)
            NOTE_FREQUENCIES
  /\ name (findClosestNote (Fin 440)) = Some "F#/Gb"
  /\ octave (findClosestNote (Fin 440)) = Fin 4.
Proof.
  pose proof (isNote4_fields _ _ note_261_63) as [N1 O1].
  pose proof (isNote4_fields _ _ note_277_18) as [N2 O2].
  pose proof (isNote4_fields _ _ note_293_66) as [N3 O3].
  pose proof (isNote4_fields _ _ note_311_13) as [N4 O4].
  pose proof (isNote4_fields _ _ note_329_63) as [N5 O5].
  pose proof (isNote4_fields _ _ note_349_23) as [N6 O6].
  pose proof (isNote4_fields _ _ note_369_99) as [N7 O7].
  pose proof (isNote4_fields _ _ note_392_00) as [N8 O8].
  pose proof (isNote4_fields _ _ note_415_30) as [N9 O9].
  pose proof (isNote4_fields _ _ note_440_00) as [N10 O10].
  pose proof (isNote4_fields _ _ note_466_16) as [N11 O11].
  pose proof (isNote4_fields _ _ note_493_88) as [N12 O12].
  unfold NOTE_FREQUENCIES. cbn [map snd].
  rewrite N1, N2, N3, N4, N5, N6, N7, N8, N9, N10, N11, N12.
  split; [reflexivity |]. split.
  - repeat (apply Forall_cons; [cbn [snd]; assumption |]). apply Forall_nil.
  - replace 440 with 440.00 by lra. split; [exact N10 | apply O10].
Qed.



Lemma findClosestNote_NaN :
  findClosestNote NaN = {| name := None; octave := NaN; frequency := NaN |}.
Proof. reflexivity. Qed.

Lemma halfStepRatio_gt_1 : 1 < Rpower 2 (1 / 12).
Proof.
  unfold Rpower. rewrite <- exp_0 at 1. apply exp_increasing.
  pose proof ln2_pos. lra.
Qed.





(** ** The chord matcher *)

Lemma Math_max_fin (a b : R) : Math_max (Fin a) (Fin b) = Fin (Rmax a b).
Proof.
  cbn [Math_max ltb]. unfold Rltb, Rmax.
  destruct (Rlt_dec a b), (Rle_dec a b); try reflexivity; try lra.
  f_equal. lra.
Qed.

Lemma weight_fin (note : ChordNote) (f : R) :
  frequency note = Fin f ->
  weight (noteInfoOf note) = Fin (1 / Rmax f 80) /\ 0 < 1 / Rmax f 80 <= 1 / 80.
Proof.
  intros E. unfold noteInfoOf. cbn [weight]. rewrite E, Math_max_fin.
  pose proof (Rmax_r f 80) as M.
  rewrite div_fin by lra. split; [reflexivity |].
  unfold Rdiv. rewrite !Rmult_1_l. split.
  - apply Rinv_0_lt_compat. lra.
  - apply Rinv_le_contravar; lra.
Qed.

Lemma finiteWeights_map (notes : list ChordNote) :
  Forall finiteNote notes -> finiteWeights (map noteInfoOf notes).
Proof.
  intros H. unfold finiteWeights. rewrite Forall_map.
  eapply Forall_impl; [| exact H].
  intros note [f E]. exists (1 / Rmax f 80). now apply weight_fin.
Qed.

Section SortFacts.
Context {A : Type} (after : A -> A -> bool).

Lemma insert_In (x y : A) (l : list A) : In y (insert after x l) <-> y = x \/ In y l.
Proof.
  induction l as [| z l IH]; cbn [insert].
  - cbn. intuition.
  - destruct (after x z); cbn [In]; [rewrite IH |]; intuition.
Qed.

Lemma sort_In (y : A) (l : list A) : In y (sort after l) <-> In y l.
Proof.
  induction l as [| x l IH]; cbn [sort fold_right]; [reflexivity |].
  fold (sort after l). rewrite insert_In, IH. cbn. intuition.
Qed.

Lemma sort_Forall (P : A -> Prop) (l : list A) : Forall P l -> Forall P (sort after l).
Proof.
  rewrite !Forall_forall. intros H y Hy. apply H. exact (proj1 (sort_In y l) Hy).
Qed.

Lemma insert_length (x : A) (l : list A) :
  List.length (insert after x l) = S (List.length l).
Proof.
  induction l as [| z l IH]; cbn [insert]; [reflexivity |].
  destruct (after x z); cbn [List.length]; [now rewrite IH | reflexivity].
Qed.

Lemma sort_length (l : list A) : List.length (sort after l) = List.length l.
Proof.
  induction l as [| x l IH]; cbn [sort fold_right]; [reflexivity |].
  fold (sort after l). now rewrite insert_length, IH.
Qed.

(** A head that does not have to go after its successor stays in front. *)
Lemma sort_cons_head (x y : A) (l : list A) :
  sort after (y :: l) = y :: l -> after x y = false ->
  sort after (x :: y :: l) = x :: y :: l.
Proof.
  intros E H. change (sort after (x :: y :: l)) with (insert after x (sort after (y :: l))).
  rewrite E. cbn [insert]. now rewrite H.
Qed.
End SortFacts.

Lemma finiteWeights_sorted (notes : list ChordNote) :
  Forall finiteNote notes -> finiteWeights (sortedInfo notes).
Proof. intros H. apply sort_Forall. now apply finiteWeights_map. Qed.

Lemma weightR_of (info : NoteInfo) (w : R) : weight info = Fin w -> weightR info = w.
Proof. intros E. unfold weightR. now rewrite E. Qed.

Lemma finiteWeights_cons (info : NoteInfo) (l : list NoteInfo) :
  finiteWeights (info :: l) ->
  weight info = Fin (weightR info) /\ 0 < weightR info <= 1 / 80 /\ finiteWeights l.
Proof.
  intros H. inversion H as [| ? ? [w [E B]] Hl]; subst.
  rewrite (weightR_of _ _ E). auto.
Qed.

Lemma totalWeight_bounds (l : list NoteInfo) :
  finiteWeights l -> 0 <= totalWeight l <= INR (List.length l) / 80.
Proof.
  induction l as [| info l IH]; intros H.
  - cbn. lra.
  - apply finiteWeights_cons in H as [_ [B Hl]]. specialize (IH Hl).
    change (totalWeight (info :: l)) with (weightR info + totalWeight l).
    change (List.length (info :: l)) with (S (List.length l)). rewrite S_INR. lra.
Qed.

Lemma totalWeight_pos (l : list NoteInfo) :
  finiteWeights l -> l <> [] -> 0 < totalWeight l.
Proof.
  destruct l as [| info l]; intros H Hne; [contradiction |].
  apply finiteWeights_cons in H as [_ [B Hl]].
  pose proof (totalWeight_bounds l Hl).
  change (totalWeight (info :: l)) with (weightR info + totalWeight l). lra.
Qed.

Lemma scoreSum_le (flags : list bool) (l : list NoteInfo) :
  finiteWeights l -> scoreSum flags l <= 2 * totalWeight l.
Proof.
  revert flags. induction l as [| info l IH]; intros flags H.
  - destruct flags; cbn; lra.
  - apply finiteWeights_cons in H as [_ [B Hl]].
    change (totalWeight (info :: l)) with (weightR info + totalWeight l).
    destruct flags as [| flag flags].
    + pose proof (totalWeight_bounds l Hl). cbn. lra.
    + specialize (IH flags Hl). cbn [scoreSum]. destruct flag; lra.
Qed.

Lemma scoreSum_all (flags : list bool) (l : list NoteInfo) :
  List.length flags = List.length l -> forallb (fun b : bool => b) flags = true ->
  scoreSum flags l = 2 * totalWeight l.
Proof.
  revert flags. induction l as [| info l IH]; intros [| flag flags] L F;
    try discriminate; [cbn; lra |].
  cbn [forallb] in F. apply andb_prop in F as [F1 F2]. subst flag.
  injection L as L. cbn [scoreSum].
  change (totalWeight (info :: l)) with (weightR info + totalWeight l).
  rewrite (IH flags L F2). lra.
Qed.

Lemma scoreSum_lt (flags : list bool) (l : list NoteInfo) :
  finiteWeights l ->
  List.length flags = List.length l -> forallb (fun b : bool => b) flags = false ->
  scoreSum flags l < 2 * totalWeight l.
Proof.
  revert flags. induction l as [| info l IH]; intros [| flag flags] H L F;
    try discriminate.
  apply finiteWeights_cons in H as [_ [B Hl]].
  injection L as L. cbn [scoreSum].
  change (totalWeight (info :: l)) with (weightR info + totalWeight l).
  destruct flag.
  - cbn [forallb andb] in F. specialize (IH flags Hl L F). lra.
  - pose proof (scoreSum_le flags l Hl). lra.
Qed.

Lemma fold_scoreStep (e : list (option string)) (l : list NoteInfo) (s : R) (m : nat) :
  finiteWeights l ->
  fold_left (scoreStep e) l (Fin s, m)
  = (Fin (s + scoreSum (map (fun info => noteMatched e (info_name info)) l) l),
     (m + countTrue (map (fun info => noteMatched e (info_name info)) l))%nat).
Proof.
  revert s m. induction l as [| info l IH]; intros s m H.
  - cbn. f_equal; [f_equal; lra | unfold countTrue; cbn; lia].
  - apply finiteWeights_cons in H as [E [_ Hl]].
    cbn [fold_left map scoreSum]. unfold scoreStep at 2. cbn [fst snd].
    rewrite E. unfold countTrue. cbn [filter].
    destruct (noteMatched e (info_name info)).
    + cbn [add mul]. rewrite (IH _ _ Hl). unfold countTrue. cbn [List.length].
      f_equal; [f_equal; lra | lia].
    + cbn [sub add mul neg]. rewrite (IH _ _ Hl). unfold countTrue.
      f_equal. f_equal. lra.
Qed.

(** The score of a candidate as a real number. *)
Lemma scoreOf_fin (l : list NoteInfo) (root : string) (formula : list string) :
  finiteWeights l ->
  scoreOf l root formula
  = (Fin (scoreSum (matchFlags (map info_name l) root formula) l
          - INR (missingCount (map info_name l) root formula) * 2),
     countTrue (matchFlags (map info_name l) root formula)).
Proof.
  intros H. unfold scoreOf. rewrite (fold_scoreStep _ l 0 0 H).
  unfold matchFlags, missingCount. rewrite map_map.
  cbn [sub add neg mul of_Z]. rewrite <- INR_IZR_INZ.
  f_equal. f_equal. lra.
Qed.

Lemma matchFlags_length (names : list (option string)) (root : string) (formula : list string) :
  List.length (matchFlags names root formula) = List.length names.
Proof. unfold matchFlags. apply length_map. Qed.

Lemma minRequired_check (m n : nat) :
  (of_Z (Z.of_nat m) >=? Math_min (Fin 2) (of_Z (Z.of_nat n)))%js
  = Nat.leb (Nat.min 2 n) m.
Proof.
  unfold of_Z, geb. cbn [Math_min ltb]. rewrite <- !INR_IZR_INZ.
  destruct (Nat.leb (Nat.min 2 n) m) eqn:E.
  - apply Nat.leb_le in E. unfold Rltb. destruct (Rlt_dec (INR n) 2) as [L | L]; cbn [leb].
    + apply Rleb_true. apply le_INR.
      assert (n < 2)%nat by (apply INR_lt; exact L). lia.
    + apply Rleb_true. change 2 with (INR 2). apply le_INR.
      assert (2 <= n)%nat by (apply INR_le; change (INR 2) with 2; lra). lia.
  - apply Nat.leb_gt in E. unfold Rltb. destruct (Rlt_dec (INR n) 2) as [L | L]; cbn [leb].
    + apply Rleb_false. apply lt_INR.
      assert (n < 2)%nat by (apply INR_lt; exact L). lia.
    + apply Rleb_false. change 2 with (INR 2). apply lt_INR.
      assert (2 <= n)%nat by (apply INR_le; change (INR 2) with 2; lra). lia.
Qed.

(** One candidate against the best so far, when the weights are finite. *)
Lemma tryCandidate_fin (l : list NoteInfo) (c : Candidate) (b : R) (nm fm : string) :
  finiteWeights l ->
  let names := map info_name l in
  let root := fst c in
  let formula := snd (snd c) in
  let s := scoreSum (matchFlags names root formula) l
           - INR (missingCount names root formula) * 2 in
  tryCandidate l (Fin b, nm, fm) c
  = if Nat.leb (Nat.min 2 (List.length formula)) (countTrue (matchFlags names root formula))
       && Rltb b s
    then (Fin s, (root ++ fst (snd c))%string, join "-" formula)
    else (Fin b, nm, fm).
Proof.
  intros H names root formula s. destruct c as [r [suffix f]].
  unfold tryCandidate, tryTemplate. cbn [fst snd] in *.
  rewrite (scoreOf_fin l r f H). rewrite minRequired_check.
  reflexivity.
Qed.

Lemma candidate_score_le (l : list NoteInfo) (names : list (option string))
      (root : string) (formula : list string) :
  finiteWeights l ->
  scoreSum (matchFlags names root formula) l - INR (missingCount names root formula) * 2
  <= 2 * totalWeight l.
Proof.
  intros H. pose proof (scoreSum_le (matchFlags names root formula) l H).
  pose proof (pos_INR (missingCount names root formula)). lra.
Qed.

Lemma perfect_score (l : list NoteInfo) (c : Candidate) :
  perfect (map info_name l) c = true ->
  scoreSum (matchFlags (map info_name l) (fst c) (snd (snd c))) l
  - INR (missingCount (map info_name l) (fst c) (snd (snd c))) * 2
  = 2 * totalWeight l
  /\ countTrue (matchFlags (map info_name l) (fst c) (snd (snd c))) = List.length l.
Proof.
  unfold perfect. intros P. apply andb_prop in P as [P1 P2].
  apply Nat.eqb_eq in P2. rewrite P2. cbn [INR].
  assert (L : List.length (matchFlags (map info_name l) (fst c) (snd (snd c)))
              = List.length l) by (rewrite matchFlags_length; apply length_map).
  rewrite (scoreSum_all _ l L P1). split; [lra |].
  unfold countTrue. rewrite <- L. clear L P2.
  induction (matchFlags (map info_name l) (fst c) (snd (snd c))) as [| flag flags IH];
    [reflexivity |].
  cbn [forallb] in P1. apply andb_prop in P1 as [F1 F2]. subst flag.
  cbn [filter List.length]. now rewrite IH.
Qed.

Lemma imperfect_score (l : list NoteInfo) (c : Candidate) :
  finiteWeights l ->
  perfect (map info_name l) c = false ->
  scoreSum (matchFlags (map info_name l) (fst c) (snd (snd c))) l
  - INR (missingCount (map info_name l) (fst c) (snd (snd c))) * 2
  < 2 * totalWeight l.
Proof.
  intros H P. unfold perfect in P.
  assert (L : List.length (matchFlags (map info_name l) (fst c) (snd (snd c)))
              = List.length l) by (rewrite matchFlags_length; apply length_map).
  pose proof (pos_INR (missingCount (map info_name l) (fst c) (snd (snd c)))) as M.
  apply andb_false_iff in P as [P | P].
  - pose proof (scoreSum_lt _ l H L P). lra.
  - apply Nat.eqb_neq in P.
    pose proof (scoreSum_le (matchFlags (map info_name l) (fst c) (snd (snd c))) l H).
    assert (1 <= INR (missingCount (map info_name l) (fst c) (snd (snd c)))).
    { change 1 with (INR 1). apply le_INR. lia. }
    lra.
Qed.

(** Once a perfect match is the best, nothing replaces it. *)
Lemma fold_after_perfect (l : list NoteInfo) (cs : list Candidate) (nm fm : string) :
  finiteWeights l ->
  fold_left (tryCandidate l) cs (Fin (2 * totalWeight l), nm, fm)
  = (Fin (2 * totalWeight l), nm, fm).
Proof.
  intros H. induction cs as [| c cs IH]; [reflexivity |].
  cbn [fold_left]. rewrite (tryCandidate_fin l c _ nm fm H). cbn zeta.
  rewrite (Rltb_false _ _ (candidate_score_le l _ _ _ H)).
  rewrite andb_false_r. exact IH.
Qed.

(** Before the first perfect match, the best score stays below the score
    of a perfect match. *)
Lemma fold_before_perfect (l : list NoteInfo) (pre : list Candidate) :
  finiteWeights l ->
  forallb (fun c => negb (perfect (map info_name l) c)) pre = true ->
  forall (b : R) (nm fm : string),
    b < 2 * totalWeight l ->
    exists (b' : R) (nm' fm' : string),
      fold_left (tryCandidate l) pre (Fin b, nm, fm) = (Fin b', nm', fm')
      /\ b' < 2 * totalWeight l.
Proof.
  intros H. induction pre as [| c pre IH]; intros F b nm fm B.
  - exists b, nm, fm. now split.
  - cbn [forallb] in F. apply andb_prop in F as [F1 F2].
    apply negb_true_iff in F1.
    cbn [fold_left]. rewrite (tryCandidate_fin l c b nm fm H). cbn zeta.
    destruct (_ && _)%bool.
    + apply IH; [exact F2 |]. now apply imperfect_score.
    + now apply IH.
Qed.

Lemma first_perfect_wins (l : list NoteInfo) (pre post : list Candidate) (c : Candidate) :
  finiteWeights l -> (2 <= List.length l)%nat ->
  forallb (fun c => negb (perfect (map info_name l) c)) pre = true ->
  perfect (map info_name l) c = true ->
  fold_left (tryCandidate l) (pre ++ c :: post) initialBest
  = (Fin (2 * totalWeight l), (fst c ++ fst (snd c))%string, join "-" (snd (snd c))).
Proof.
  intros H L F P.
  assert (T : 0 < totalWeight l).
  { apply totalWeight_pos; [exact H |]. destruct l; [cbn in L; lia | discriminate]. }
  rewrite fold_left_app. unfold initialBest.
  destruct (fold_before_perfect l pre H F (-1) "" "" ltac:(lra)) as [b [nm [fm [E B]]]].
  rewrite E. cbn [fold_left].
  rewrite (tryCandidate_fin l c b nm fm H). cbn zeta.
  destruct (perfect_score l c P) as [S M]. rewrite S, M.
  rewrite (Rltb_true _ _ B).
  replace (Nat.leb _ _) with true by (symmetry; apply Nat.leb_le; lia).
  cbn [andb]. now apply fold_after_perfect.
Qed.

Lemma find_split {A : Type} (p : A -> bool) (l : list A) (x : A) :
  find p l = Some x ->
  exists pre post, l = pre ++ x :: post
                   /\ forallb (fun y => negb (p y)) pre = true /\ p x = true.
Proof.
  induction l as [| y l IH]; [discriminate |].
  cbn [find]. destruct (p y) eqn:E.
  - intros [= ->]. exists [], l. now repeat split.
  - intros F. destruct (IH F) as [pre [post [-> [Hp Hx]]]].
    exists (y :: pre), post. repeat split; [| exact Hx].
    cbn [forallb]. now rewrite E.
Qed.

(** The three nested loops of [search] visit [candidates] in order. *)
Lemma fold_left_flat_map {A B C : Type} (f : A -> C -> A) (g : B -> list C)
      (l : list B) (a : A) :
  fold_left f (flat_map g l) a = fold_left (fun a x => fold_left f (g x) a) l a.
Proof.
  revert a. induction l as [| x l IH]; intros a; [reflexivity |].
  cbn [flat_map fold_left]. now rewrite fold_left_app, IH.
Qed.

Lemma fold_left_map {A B C : Type} (f : A -> C -> A) (g : B -> C) (l : list B) (a : A) :
  fold_left f (map g l) a = fold_left (fun a x => f a (g x)) l a.
Proof. revert a. induction l as [| x l IH]; intros a; [reflexivity | apply IH]. Qed.

Lemma fold_left_ext {A B : Type} (f g : A -> B -> A) (l : list B) (a : A) :
  (forall a x, f a x = g a x) -> fold_left f l a = fold_left g l a.
Proof.
  intros E. revert a. induction l as [| x l IH]; intros a; [reflexivity |].
  cbn [fold_left]. now rewrite E, IH.
Qed.

Lemma search_candidates (notes : list ChordNote) :
  search notes
  = fold_left (tryCandidate (sortedInfo notes)) (candidates (sortedInfo notes)) initialBest.
Proof.
  unfold search, candidates, candidateRoots.
  rewrite !fold_left_flat_map. apply fold_left_ext. intros best rootNote.
  unfold tryRoot. apply fold_left_ext. intros best' root.
  rewrite fold_left_map. reflexivity.
Qed.

(** A perfect match always wins, and it is the first one in the order of
    the search. *)
Lemma perfect_match_found (notes : list ChordNote) (c : Candidate) :
  (2 <= List.length notes)%nat -> Forall finiteNote notes ->
  find (perfect (map info_name (sortedInfo notes))) (candidates (sortedInfo notes)) = Some c ->
  identifyChord notes
  = Ok {| match_name := (fst c ++ fst (snd c))%string;
          match_formula := join "-" (snd (snd c)) |}.
Proof.
  intros L F E.
  pose proof (finiteWeights_sorted notes F) as W.
  assert (L' : (2 <= List.length (sortedInfo notes))%nat).
  { unfold sortedInfo. now rewrite sort_length, length_map. }
  destruct (find_split _ _ _ E) as [pre [post [Ec [Hp Hc]]]].
  pose proof (first_perfect_wins _ pre post c W L' Hp Hc) as S.
  rewrite <- Ec, <- search_candidates in S.
  assert (T : 0 < totalWeight (sortedInfo notes)).
  { apply totalWeight_pos; [exact W |].
    destruct (sortedInfo notes); [cbn in L'; lia | discriminate]. }
  destruct notes as [| n1 [| n2 rest]]; [cbn in L; lia | cbn in L; lia |].
  unfold identifyChord. rewrite S. cbn [gtb ltb].
  now rewrite Rltb_true by lra.
Qed.

Lemma rootsToTry_names (l : list NoteInfo) :
  rootsToTry l = set_of [] (filter_truthy (map info_name l)).
Proof.
  unfold rootsToTry. rewrite <- (firstn_skipn 3 l) at 3.
  now rewrite map_app, <- skipn_map.
Qed.

Lemma candidates_names (l : list NoteInfo) :
  candidates l = candidatesOf (map info_name l).
Proof. unfold candidates, candidateRoots, candidatesOf. now rewrite rootsToTry_names. Qed.

Lemma names_of_infos (notes : list ChordNote) :
  map info_name (map noteInfoOf notes) = map name notes.
Proof. rewrite map_map. reflexivity. Qed.

Lemma byWeight_ascending (a b : ChordNote) (fa fb : R) :
  frequency a = Fin fa -> frequency b = Fin fb -> fa <= fb ->
  byWeight (noteInfoOf a) (noteInfoOf b) = false.
Proof.
  intros Ea Eb H. unfold byWeight.
  destruct (weight_fin a fa Ea) as [Wa _]. destruct (weight_fin b fb Eb) as [Wb _].
  rewrite Wa, Wb. cbn [sub add neg gtb ltb]. apply Rltb_false.
  pose proof (Rmax_r fa 80). pose proof (Rmax_r fb 80).
  assert (M : Rmax fa 80 <= Rmax fb 80) by (apply Rle_max_compat_r; exact H).
  assert (1 / Rmax fb 80 <= 1 / Rmax fa 80).
  { unfold Rdiv. rewrite !Rmult_1_l. apply Rinv_le_contravar; lra. }
  lra.
Qed.

Lemma byWeight_descending (a b : ChordNote) (fa fb : R) :
  frequency a = Fin fa -> frequency b = Fin fb -> 80 <= fb < fa ->
  byWeight (noteInfoOf a) (noteInfoOf b) = true.
Proof.
  intros Ea Eb H. unfold byWeight.
  destruct (weight_fin a fa Ea) as [Wa _]. destruct (weight_fin b fb Eb) as [Wb _].
  rewrite Wa, Wb. cbn [sub add neg gtb ltb]. apply Rltb_true.
  rewrite (Rmax_left fa 80), (Rmax_left fb 80) by lra.
  assert (1 / fa < 1 / fb).
  { unfold Rdiv. rewrite !Rmult_1_l. apply Rinv_lt_contravar; [| lra].
    apply Rmult_lt_0_compat; lra. }
  lra.
Qed.

(** Notes given from the lowest to the highest keep their order. *)
Lemma sortedInfo_ascending (notes : list ChordNote) (fs : list R) :
  map frequency notes = map Fin fs -> ascending fs ->
  sortedInfo notes = map noteInfoOf notes.
Proof.
  unfold sortedInfo. revert fs.
  induction notes as [| a notes IH]; intros fs E A; [reflexivity |].
  destruct fs as [| fa fs]; [discriminate |]. injection E as Ea E.
  destruct notes as [| b notes]; [reflexivity |].
  destruct fs as [| fb fs]; [discriminate |].
  destruct A as [Hab A].
  cbn [map]. apply sort_cons_head.
  - exact (IH (fb :: fs) E A).
  - injection E as Eb _. now apply (byWeight_ascending a b fa fb).
Qed.

(** C3: on the C major triad the chord matcher returns "C6" with formula
    "1-3-5-6", not "C" with "1-3-5": [Object.entries] enumerates the keys
    "6" and "7" of the chord table before the key of the major triad, the
    sixth chord matches all three notes with the same score, and a later
    equal score does not replace it. *)
Theorem identifyChord_cMajorTriad :
  map fst (Object_entries CHORD_FORMULAS)
  = ["6"; "7"; ""; "m"; "maj7"; "m7"; "dim"; "aug"; "sus4"; "sus2"; "m6"]
  /\ identifyChord cMajorTriad
     = Ok {| match_name := "C6"; match_formula := "1-3-5-6" |}.
Proof.
  split; [reflexivity |].
  rewrite (perfect_match_found cMajorTriad ("C", ("6", ["1"; "3"; "5"; "6"]))).
  - reflexivity.
  - cbn. lia.
  - repeat constructor; eexists; reflexivity.
  - rewrite (sortedInfo_ascending cMajorTriad [261.63; 329.63; 392.00]).
    + rewrite candidates_names, names_of_infos.
      unfold cMajorTriad, note. cbn [map name]. vm_compute. reflexivity.
    + reflexivity.
    + cbn. lra.
Qed.

Lemma weightR_note (nm : string) (oct : Z) (f : R) :
  80 <= f -> weightR (noteInfoOf (note nm oct f)) = 1 / f.
Proof.
  intros H. destruct (weight_fin (note nm oct f) f eq_refl) as [E _].
  rewrite (weightR_of _ _ E). now rewrite Rmax_left by lra.
Qed.

(** C4: on A, C, E with frequencies within 1 Hz of 440, 523.25 and 659.25
    the chord matcher returns "Am" with formula "1-b3-5".  With root A the
    major template matches A and E but not C, and of its essential notes
    exactly the third is missing: its score is twice the weights of A and
    E, minus half the weight of C for the unmatched note, minus 2 for the
    missing third, which puts it below the initial best score -1, so that
    it is never accepted.  The minor template matches all three notes,
    lacks no essential note and scores twice the sum of the weights. *)
Theorem identifyChord_aMinorTriad (fa fc fe : R) :
  Rabs (fa - 440) <= 1 -> Rabs (fc - 523.25) <= 1 -> Rabs (fe - 659.25) <= 1 ->
  identifyChord (aMinorTriad fa fc fe)
  = Ok {| match_name := "Am"; match_formula := "1-b3-5" |}
  /\ matchFlags (map info_name (sortedInfo (aMinorTriad fa fc fe))) "A" majorFormula
     = [true; false; true]
  /\ filter (isMissingEssential "A" (map info_name (sortedInfo (aMinorTriad fa fc fe))))
            majorFormula = ["3"]
  /\ filter (isMissingEssential "A" (map info_name (sortedInfo (aMinorTriad fa fc fe))))
            minorFormula = []
  /\ scoreOf (sortedInfo (aMinorTriad fa fc fe)) "A" majorFormula
     = (Fin (2 * (1 / fa) - 0.5 * (1 / fc) + 2 * (1 / fe) - 2), 2%nat)
  /\ scoreOf (sortedInfo (aMinorTriad fa fc fe)) "A" minorFormula
     = (Fin (2 * (1 / fa) + 2 * (1 / fc) + 2 * (1 / fe)), 3%nat)
  /\ 2 * (1 / fa) - 0.5 * (1 / fc) + 2 * (1 / fe) - 2 < -1
  /\ -1 < 2 * (1 / fa) - 0.5 * (1 / fc) + 2 * (1 / fe)
  /\ 0 < 2 * (1 / fa) + 2 * (1 / fc) + 2 * (1 / fe).
Proof.
  intros Ha Hc He.
  apply Rabs_le_bounds in Ha. apply Rabs_le_bounds in Hc. apply Rabs_le_bounds in He.
  assert (F : Forall finiteNote (aMinorTriad fa fc fe))
    by (repeat constructor; eexists; reflexivity).
  assert (S : sortedInfo (aMinorTriad fa fc fe) = map noteInfoOf (aMinorTriad fa fc fe)).
  { apply (sortedInfo_ascending _ [fa; fc; fe]); [reflexivity | cbn; lra]. }
  assert (N : map info_name (sortedInfo (aMinorTriad fa fc fe))
              = [Some "A"; Some "C"; Some "E"]).
  { rewrite S, names_of_infos. reflexivity. }
  assert (FM : matchFlags [Some "A"; Some "C"; Some "E"] "A" majorFormula
               = [true; false; true]) by (vm_compute; reflexivity).
  assert (Fm : matchFlags [Some "A"; Some "C"; Some "E"] "A" minorFormula
               = [true; true; true]) by (vm_compute; reflexivity).
  assert (MM : filter (isMissingEssential "A" [Some "A"; Some "C"; Some "E"]) majorFormula
               = ["3"]) by (vm_compute; reflexivity).
  assert (Mm : filter (isMissingEssential "A" [Some "A"; Some "C"; Some "E"]) minorFormula
               = []) by (vm_compute; reflexivity).
  assert (Wa : 0 < 1 / fa <= 1 / 439).
  { unfold Rdiv. rewrite !Rmult_1_l. split;
      [apply Rinv_0_lt_compat | apply Rinv_le_contravar]; lra. }
  assert (Wc : 0 < 1 / fc <= 1 / 522).
  { unfold Rdiv. rewrite !Rmult_1_l. split;
      [apply Rinv_0_lt_compat | apply Rinv_le_contravar]; lra. }
  assert (We : 0 < 1 / fe <= 1 / 658).
  { unfold Rdiv. rewrite !Rmult_1_l. split;
      [apply Rinv_0_lt_compat | apply Rinv_le_contravar]; lra. }
  pose proof (finiteWeights_sorted _ F) as W.
  split.
  { rewrite (perfect_match_found _ ("A", ("m", minorFormula))).
    - reflexivity.
    - cbn. lia.
    - exact F.
    - rewrite candidates_names, N. vm_compute. reflexivity. }
  rewrite !(scoreOf_fin _ _ _ W). unfold missingCount. rewrite N, FM, Fm, MM, Mm.
  rewrite S. unfold aMinorTriad. cbn [map scoreSum List.length INR].
  rewrite !weightR_note by lra.
  repeat split; try reflexivity; try lra.
  - f_equal. f_equal. lra.
  - f_equal. f_equal. lra.
Qed.

Lemma identifyChord_aMinorTriad_witness :
  identifyChord (aMinorTriad 440 523.25 659.25)
  = Ok {| match_name := "Am"; match_formula := "1-b3-5" |}.
Proof.
  apply (identifyChord_aMinorTriad 440 523.25 659.25);
    apply Rabs_le; split; lra.
Defined.

(** ** The fallback *)

Lemma split_without (c : ascii) (s : string) :
  includes_char c s = false -> split_char c s = [s].
Proof.
  induction s as [| d s IH]; [reflexivity |].
  cbn [includes_char split_char]. intros H. apply orb_false_iff in H as [H1 H2].
  now rewrite H1, (IH H2).
Qed.

Lemma cleanName_firstSpelling (s : string) :
  (if includes_char slash s then firstSpelling s else s) = firstSpelling s.
Proof.
  destruct (includes_char slash s) eqn:E; [reflexivity |].
  unfold firstSpelling. now rewrite (split_without _ _ E).
Qed.

Lemma Object_entries_In {A : Type} (o : list (string * A)) (x : string * A) :
  In x (Object_entries o) -> In x o.
Proof.
  unfold Object_entries. rewrite in_app_iff, sort_In, !filter_In. tauto.
Qed.

Lemma fold_left_invariant {A B : Type} (P : A -> Prop) (f : A -> B -> A) (l : list B) :
  (forall a x, In x l -> P a -> P (f a x)) -> forall a, P a -> P (fold_left f l a).
Proof.
  induction l as [| x l IH]; intros H a Pa; [exact Pa |].
  cbn [fold_left]. apply IH.
  - intros a' y Hy. apply H. now right.
  - apply H; [now left | exact Pa].
Qed.

Lemma candidates_In (l : list NoteInfo) (c : Candidate) :
  In c (candidates l) ->
  In (fst c) (candidateRoots l) /\ In (snd c) CHORD_FORMULAS.
Proof.
  unfold candidates. rewrite in_flat_map. intros [root [Hr Hc]].
  apply in_map_iff in Hc as [entry [<- He]]. cbn [fst snd].
  split; [exact Hr | now apply Object_entries_In].
Qed.

(** When no candidate is positive the search ends without a positive best
    score. *)
Lemma search_not_positive (notes : list ChordNote) :
  noPositiveCandidate notes -> (bestScore (search notes) >? Fin 0)%js = false.
Proof.
  intros H. rewrite search_candidates.
  apply (fold_left_invariant (fun best => (bestScore best >? Fin 0)%js = false)).
  - intros best [root [suffix formula]] Hc Pb.
    apply candidates_In in Hc as [Hr Hf]. cbn [fst snd] in Hr, Hf.
    specialize (H root suffix formula Hr Hf).
    unfold tryCandidate, tryTemplate. cbn [fst snd].
    destruct (scoreOf (sortedInfo notes) root formula) as [score matched].
    cbn [fst snd] in H.
    destruct (of_Z (Z.of_nat matched) >=? _)%js.
    + rewrite andb_true_r in H. cbn [andb].
      destruct (score >? bestScore best)%js; [exact H | exact Pb].
    + exact Pb.
  - cbn. apply Rltb_false. lra.
Qed.

(** The fallback returns the first note of the input. *)
Lemma fallback_first_note (first : ChordNote) (rest : list ChordNote) :
  rest <> [] -> noPositiveCandidate (first :: rest) ->
  identifyChord (first :: rest) = Ok (impliedUnison first).
Proof.
  intros Hne H. destruct rest as [| second rest]; [contradiction |].
  pose proof (search_not_positive _ H) as S.
  unfold identifyChord.
  destruct (search (first :: second :: rest)) as [[score nm] fm].
  cbn [bestScore fst] in S. rewrite S.
  unfold impliedUnison. now rewrite cleanName_firstSpelling.
Qed.

Lemma hopeless_not_positive (l : list NoteInfo) (root suffix : string) (formula : list string) :
  finiteWeights l -> (List.length l < 80)%nat ->
  hopeless (map info_name l) (root, (suffix, formula)) = true ->
  ((fst (scoreOf l root formula) >? Fin 0)%js
   && (of_Z (Z.of_nat (snd (scoreOf l root formula)))
       >=? Math_min (Fin 2) (of_Z (Z.of_nat (List.length formula))))%js)%bool = false.
Proof.
  intros W L Hh. rewrite (scoreOf_fin l root formula W). cbn [fst snd].
  rewrite minRequired_check. unfold hopeless in Hh. cbn [fst snd] in Hh.
  apply orb_true_iff in Hh as [Hm | Hc].
  - apply Nat.leb_le in Hm. apply andb_false_iff. left.
    cbn [gtb ltb]. apply Rltb_false.
    pose proof (scoreSum_le (matchFlags (map info_name l) root formula) l W) as B.
    pose proof (totalWeight_bounds l W) as [_ T].
    assert (INR (List.length l) < 80).
    { apply lt_INR in L. rewrite (INR_IZR_INZ 80) in L. exact L. }
    assert (1 <= INR (missingCount (map info_name l) root formula)).
    { change 1 with (INR 1). apply le_INR. exact Hm. }
    lra.
  - apply Nat.ltb_lt in Hc. apply andb_false_iff. right.
    apply Nat.leb_gt. exact Hc.
Qed.

Lemma allPairs_In (roots : list string) (root suffix : string) (formula : list string) :
  In root roots -> In (suffix, formula) CHORD_FORMULAS ->
  In (root, (suffix, formula)) (allPairs roots).
Proof.
  intros Hr Hf. unfold allPairs. apply in_flat_map. exists root.
  split; [exact Hr |]. apply in_map_iff. now exists (suffix, formula).
Qed.

(** Every candidate is hopeless: no candidate is positive. *)
Lemma hopeless_noPositive (notes : list ChordNote) :
  Forall finiteNote notes -> (List.length notes < 80)%nat ->
  forallb (hopeless (map info_name (sortedInfo notes)))
          (allPairs (candidateRoots (sortedInfo notes))) = true ->
  noPositiveCandidate notes.
Proof.
  intros F L H root suffix formula Hr Hf.
  apply (hopeless_not_positive _ root suffix formula).
  - now apply finiteWeights_sorted.
  - unfold sortedInfo. now rewrite sort_length, length_map.
  - rewrite forallb_forall in H. apply H. now apply allPairs_In.
Qed.

Lemma sortedInfo_secondDC :
  sortedInfo secondDC = map noteInfoOf [note "C" 4 261.63; note "D" 4 293.66].
Proof.
  unfold sortedInfo, secondDC. cbn [map sort fold_right insert].
  rewrite (byWeight_descending _ _ 293.66 261.63); [reflexivity .. | lra].
Qed.

Lemma noPositiveCandidate_secondDC : noPositiveCandidate secondDC.
Proof.
  apply hopeless_noPositive.
  - repeat constructor; eexists; reflexivity.
  - cbn. lia.
  - unfold candidateRoots. rewrite rootsToTry_names, sortedInfo_secondDC, names_of_infos.
    unfold note. cbn [map name]. vm_compute. reflexivity.
Qed.

Lemma identifyChord_secondDC :
  identifyChord secondDC = Ok {| match_name := "D"; match_formula := "1" |}.
Proof.
  unfold secondDC. rewrite fallback_first_note.
  - reflexivity.
  - discriminate.
  - exact noPositiveCandidate_secondDC.
Qed.

Lemma bestWeighted_secondDC : bestWeighted secondDC (note "C" 4 261.63).
Proof.
  split; [right; left; reflexivity |].
  assert (WC : weight (noteInfoOf (note "C" 4 261.63)) = Fin (1 / 261.63)).
  { destruct (weight_fin (note "C" 4 261.63) 261.63 eq_refl) as [E _].
    rewrite E, Rmax_left by lra. reflexivity. }
  assert (WG : weight (noteInfoOf (note "D" 4 293.66)) = Fin (1 / 293.66)).
  { destruct (weight_fin (note "D" 4 293.66) 293.66 eq_refl) as [E _].
    rewrite E, Rmax_left by lra. reflexivity. }
  intros other [<- | [<- | []]].
  - rewrite WC, WG. cbn [leb]. apply Rleb_true. lra.
  - rewrite WC. cbn [leb]. apply Rleb_true. lra.
Qed.

(** C5, the claim as stated fails: on D4 followed by C4 no candidate is
    positive and the best-weighted (lowest) note is C4, but the matcher
    returns "D", the first note of the input. *)
Lemma fallback_is_not_the_lowest_note :
  (2 <= List.length secondDC)%nat
  /\ noPositiveCandidate secondDC
  /\ bestWeighted secondDC (note "C" 4 261.63)
  /\ identifyChord secondDC = Ok {| match_name := "D"; match_formula := "1" |}
  /\ identifyChord secondDC <> Ok (impliedUnison (note "C" 4 261.63)).
Proof.
  split; [cbn; lia |].
  split; [exact noPositiveCandidate_secondDC |].
  split; [exact bestWeighted_secondDC |].
  split; [exact identifyChord_secondDC |].
  rewrite identifyChord_secondDC. discriminate.
Qed.

(** C5, amended: for every input of two or more notes in which no (root,
    template) candidate attains a positive score with at least
    min(2, formula length) matched notes, the matcher returns the first
    spelling of the name of the first note of the input (the empty string
    when that name is undefined) with formula "1". *)
Theorem fallback_returns_first_note (first : ChordNote) (rest : list ChordNote) :
  rest <> [] -> noPositiveCandidate (first :: rest) ->
  identifyChord (first :: rest)
  = Ok {| match_name := firstSpelling (or_empty (name first)); match_formula := "1" |}.
Proof. exact (fallback_first_note first rest). Qed.

Lemma fallback_returns_first_note_witness :
  identifyChord secondDC
  = Ok {| match_name := firstSpelling (or_empty (Some "D")); match_formula := "1" |}.
Proof.
  apply (fallback_returns_first_note (note "D" 4 293.66) [note "C" 4 261.63]).
  - discriminate.
  - exact noPositiveCandidate_secondDC.
Defined.

(** ** The pipeline *)

Lemma identifyChord_returns (n1 n2 : ChordNote) (rest : list ChordNote) :
  exists m, identifyChord (n1 :: n2 :: rest) = Ok m.
Proof.
  unfold identifyChord. destruct (search (n1 :: n2 :: rest)) as [[score nm] fm].
  destruct (score >? Fin 0)%js; eexists; reflexivity.
Qed.

(** C6: for every spectrum, sample rate and transform size [detectChord]
    returns a chord and does not throw; the notes and the frequencies of
    the chord have the same length, and the notes are the frequencies
    mapped through [findClosestNote], in order. *)
Theorem detectChord_total_and_aligned (frequencyData : list Z) (sampleRate fftSize : num) :
  exists chord : Chord,
    detectChord frequencyData sampleRate fftSize = Ok chord
    /\ List.length (notes chord) = List.length (frequencies chord)
    /\ notes chord = map findClosestNote (frequencies chord).
Proof.
  unfold detectChord.
  destruct (isDataMostlySilent frequencyData).
  - exists emptyChord. now repeat split.
  - set (peaks := findFrequencyPeaks frequencyData sampleRate fftSize defaultPeakCount).
    destruct (Nat.ltb (List.length peaks) 2) eqn:L.
    + eexists. split; [reflexivity |]. cbn [notes frequencies].
      split; [apply length_map | reflexivity].
    + apply Nat.ltb_ge in L.
      destruct peaks as [| p1 [| p2 peaks]]; [cbn in L; lia | cbn in L; lia |].
      cbn [map].
      destruct (identifyChord_returns (findClosestNote p1) (findClosestNote p2)
                  (map findClosestNote peaks)) as [m E].
      rewrite E. eexists. split; [reflexivity |]. cbn [notes frequencies].
      split; [cbn [List.length]; now rewrite length_map | reflexivity].
Qed.

(** *** The silence test *)

Lemma fold_sum (frequencyData : list Z) (a : Z) :
  fold_left (fun s v => (s + of_Z v)%js) frequencyData (Fin (IZR a))
  = Fin (IZR (a + total frequencyData)).
Proof.
  revert a. induction frequencyData as [| v l IH]; intros a.
  - cbn. now rewrite Z.add_0_r.
  - cbn [fold_left total fold_right]. unfold of_Z at 2. cbn [add].
    rewrite <- plus_IZR, IH. fold (total l). f_equal. f_equal. lia.
Qed.

Lemma isDataMostlySilent_mean (frequencyData : list Z) :
  frequencyData <> [] ->
  isDataMostlySilent frequencyData
  = Z.ltb (total frequencyData) (10 * Z.of_nat (List.length frequencyData)).
Proof.
  intros Hne. unfold isDataMostlySilent.
  rewrite (fold_sum frequencyData 0). rewrite Z.add_0_l. unfold of_Z.
  set (n := Z.of_nat (List.length frequencyData)).
  assert (Hn : (0 < n)%Z).
  { unfold n. destruct frequencyData; [contradiction | cbn [List.length]; lia]. }
  assert (Hn' : 0 < IZR n) by now apply IZR_lt.
  rewrite div_fin by lra. cbn [ltb].
  destruct (Z.ltb (total frequencyData) (10 * n)) eqn:E.
  - apply Z.ltb_lt in E. apply Rltb_true.
    apply Rmult_lt_reg_r with (IZR n); [exact Hn' |].
    unfold Rdiv. rewrite Rmult_assoc, Rinv_l, Rmult_1_r by lra.
    rewrite <- mult_IZR. now apply IZR_lt.
  - apply Z.ltb_ge in E. apply Rltb_false.
    apply Rmult_le_reg_r with (IZR n); [exact Hn' |].
    unfold Rdiv. rewrite Rmult_assoc, Rinv_l, Rmult_1_r by lra.
    rewrite <- mult_IZR. now apply IZR_le.
Qed.

(** The empty spectrum has no mean (0 / 0), so it is not silent. *)
Lemma isDataMostlySilent_empty : isDataMostlySilent [] = false.
Proof.
  unfold isDataMostlySilent. cbn [fold_left List.length Z.of_nat].
  unfold of_Z, div. rewrite Reqb_true by reflexivity. unfold signed_inf.
  now rewrite !Rltb_false by lra.
Qed.

Lemma detectChord_silent (frequencyData : list Z) (sampleRate fftSize : num) :
  frequencyData <> [] ->
  (total frequencyData < 10 * Z.of_nat (List.length frequencyData))%Z ->
  detectChord frequencyData sampleRate fftSize = Ok emptyChord.
Proof.
  intros Hne H. unfold detectChord. rewrite (isDataMostlySilent_mean _ Hne).
  now replace (Z.ltb _ _) with true by (symmetry; now apply Z.ltb_lt).
Qed.

(** *** The first pass of the peak finder *)

Lemma gtb_of_elem (x y : option Z) :
  (of_elem x >? of_elem y)%js
  = match x, y with
    | Some a, Some b => Z.ltb b a
    | _, _ => false
    end.
Proof.
  destruct x as [a |], y as [b |]; try reflexivity.
  cbn [of_elem of_Z gtb ltb].
  destruct (Z.ltb b a) eqn:E.
  - apply Rltb_true, IZR_lt. now apply Z.ltb_lt.
  - apply Rltb_false, IZR_le. now apply Z.ltb_ge.
Qed.

Lemma isCandidate_localMax (smoothedData : list Z) (minBin : num) (i : Z) :
  isCandidate smoothedData minBin i
  = ((of_elem (get smoothedData i) >? getThreshold minBin (of_Z i))%js
     && localMax smoothedData i)%bool.
Proof.
  unfold isCandidate, localMax. rewrite !gtb_of_elem, <- andb_assoc.
  destruct (get smoothedData i), (get smoothedData (i - 1)), (get smoothedData (i + 1));
    try reflexivity; cbn [andb]; now rewrite ?andb_false_r.
Qed.

(** Above a positive [minBin] the threshold is at most 45. *)
Lemma isCandidate_strong (smoothedData : list Z) (lo : R) (i a : Z) :
  localMax smoothedData i = true -> get smoothedData i = Some a ->
  (46 <= a)%Z -> 0 < lo -> (0 <= i)%Z ->
  isCandidate smoothedData (Fin lo) i = true.
Proof.
  intros M G A L I. rewrite isCandidate_localMax, M, G, andb_true_r.
  unfold getThreshold, of_Z. cbn [neg mul]. rewrite div_fin by lra.
  cbn [Math_exp mul add of_elem of_Z gtb ltb]. apply Rltb_true.
  assert (I' : 0 <= IZR i) by now apply IZR_le.
  assert (A' : 46 <= IZR a) by now apply IZR_le.
  assert (E : exp (- IZR i / (lo * 2)) <= 1).
  { rewrite <- exp_0.
    assert (Q : - IZR i / (lo * 2) <= 0).
    { unfold Rdiv. rewrite <- Ropp_mult_distr_l.
      assert (0 <= IZR i * / (lo * 2)).
      { apply Rmult_le_pos; [exact I' |]. left. apply Rinv_0_lt_compat. lra. }
      lra. }
    destruct Q as [Q | Q]; [left; now apply exp_increasing | rewrite Q; lra]. }
  lra.
Qed.

Lemma candidateStep_skip (frequencyData smoothedData : list Z) (binSize minBin : num)
      (peaks : list Peak) (i : Z) :
  localMax smoothedData i = false ->
  candidateStep frequencyData smoothedData binSize minBin peaks i = peaks.
Proof.
  intros M. unfold candidateStep. rewrite isCandidate_localMax, M.
  now rewrite andb_false_r.
Qed.

Lemma fold_skip (frequencyData smoothedData : list Z) (binSize minBin : num)
      (peaks : list Peak) (l : list Z) :
  forallb (fun i => negb (localMax smoothedData i)) l = true ->
  fold_left (candidateStep frequencyData smoothedData binSize minBin) l peaks = peaks.
Proof.
  induction l as [| i l IH]; intros F; [reflexivity |].
  cbn [forallb] in F. apply andb_prop in F as [F1 F2].
  apply negb_true_iff in F1. cbn [fold_left].
  rewrite candidateStep_skip by exact F1. now apply IH.
Qed.

Lemma refine_fold (frequencyData : list Z) (l : list Z) (pb pv : Z) :
  fold_left (refineStep frequencyData) l (pb, of_Z pv)
  = (fst (fold_left (refineStepZ frequencyData) l (pb, pv)),
     of_Z (snd (fold_left (refineStepZ frequencyData) l (pb, pv)))).
Proof.
  revert pb pv. induction l as [| j l IH]; intros pb pv; [reflexivity |].
  cbn [fold_left]. unfold refineStep at 2, refineStepZ at 2 4. cbn [fst snd].
  change (of_Z pv) with (of_elem (Some pv)). rewrite gtb_of_elem.
  destruct (get frequencyData j) as [v |]; cbn [of_elem].
  - destruct (Z.ltb pv v); apply IH.
  - apply IH.
Qed.

Lemma refinePeak_Z (frequencyData smoothedData : list Z) (i a : Z) :
  get smoothedData i = Some a ->
  refinePeak frequencyData smoothedData i
  = (fst (refinePeakZ frequencyData a i), of_Z (snd (refinePeakZ frequencyData a i))).
Proof.
  intros G. unfold refinePeak, refinePeakZ. rewrite G. cbn [of_elem].
  apply refine_fold.
Qed.

(** A candidate that passes: what the iteration does with it. *)
Lemma candidateStep_hit (frequencyData smoothedData : list Z) (binSize : num) (lo : R)
      (peaks : list Peak) (i a pb pv : Z) :
  localMax smoothedData i = true -> get smoothedData i = Some a ->
  (46 <= a)%Z -> 0 < lo -> (0 <= i)%Z ->
  refinePeakZ frequencyData a i = (pb, pv) ->
  candidateStep frequencyData smoothedData binSize (Fin lo) peaks i
  = let refinedFrequency := ((of_Z pb + peakOffset frequencyData pb) * binSize)%js in
    if snd (absorb peaks refinedFrequency (of_Z pv))
    then fst (absorb peaks refinedFrequency (of_Z pv))
         ++ [{| peak_frequency := refinedFrequency; magnitude := of_Z pv |}]
    else fst (absorb peaks refinedFrequency (of_Z pv)).
Proof.
  intros M G A L I R. unfold candidateStep.
  rewrite (isCandidate_strong _ _ _ _ M G A L I).
  rewrite (refinePeak_Z _ _ _ _ G), R. cbn [fst snd]. cbn zeta.
  now destruct (absorb _ _ _).
Qed.

(** A flat top: the three bins around the peak are equal, the
    interpolation divides zero by zero. *)
Lemma peakOffset_flat (frequencyData : list Z) (peakBin v : Z) :
  get frequencyData (peakBin - 1) = Some v ->
  get frequencyData peakBin = Some v ->
  get frequencyData (peakBin + 1) = Some v ->
  peakOffset frequencyData peakBin = NaN.
Proof.
  intros A B C. unfold peakOffset. rewrite A, B, C.
  cbn [of_elem of_Z sub add neg mul div].
  rewrite Reqb_true by lra. unfold signed_inf.
  now rewrite !Rltb_false by lra.
Qed.

(** Equal neighbours below or above the peak bin: no offset. *)
Lemma peakOffset_symmetric (frequencyData : list Z) (peakBin a b : Z) :
  get frequencyData (peakBin - 1) = Some a ->
  get frequencyData peakBin = Some b ->
  get frequencyData (peakBin + 1) = Some a ->
  a <> b ->
  peakOffset frequencyData peakBin = Fin 0.
Proof.
  intros A B C N. unfold peakOffset. rewrite A, B, C.
  cbn [of_elem of_Z sub add neg mul].
  assert (D : IZR a + - (2 * IZR b) + IZR a <> 0).
  { intros E. apply N. apply eq_IZR. lra. }
  rewrite div_fin by exact D.
  replace (0.5 * (IZR a + - IZR a) / (IZR a + - (2 * IZR b) + IZR a)) with 0
    by (field; exact D).
  cbn [Math_min Math_max ltb].
  now rewrite (Rltb_true 0 0.5), (Rltb_true (-0.5) 0) by lra.
Qed.

(** *** The all-zero spectrum *)

Lemma get_In {A : Type} (l : list A) (i : Z) (x : A) : get l i = Some x -> In x l.
Proof.
  unfold get. destruct (Z.ltb i 0); [discriminate |]. apply nth_error_In.
Qed.

Lemma localMax_zeros (smoothedData : list Z) (i : Z) :
  Forall (fun v => v = 0%Z) smoothedData -> localMax smoothedData i = false.
Proof.
  intros H. rewrite Forall_forall in H. unfold localMax.
  destruct (get smoothedData i) as [a |] eqn:A; [| reflexivity].
  destruct (get smoothedData (i - 1)) as [b |] eqn:B; [| reflexivity].
  destruct (get smoothedData (i + 1)) as [c |] eqn:C; [| reflexivity].
  rewrite (H a (get_In _ _ _ A)), (H b (get_In _ _ _ B)). reflexivity.
Qed.

Lemma smoothedAt_zeros (n : nat) (i : Z) : smoothedAt (repeat 0%Z n) i = 0%Z.
Proof.
  unfold smoothedAt. destruct (_ && _)%bool; [| reflexivity].
  assert (S : forall l : list Z,
             fold_left (fun s j => (s + match get (repeat 0%Z n) j with
                                        | Some v => v
                                        | None => 0
                                        end)%Z) l 0%Z = 0%Z).
  { induction l as [| j l IH]; [reflexivity |]. cbn [fold_left].
    destruct (get (repeat 0%Z n) j) as [v |] eqn:G.
    - apply get_In, repeat_spec in G. subst v. exact IH.
    - exact IH. }
  rewrite S. reflexivity.
Qed.

Lemma smooth_zeros (n : nat) : Forall (fun v => v = 0%Z) (smooth (repeat 0%Z n)).
Proof.
  unfold smooth. rewrite Forall_map, Forall_forall. intros i _. apply smoothedAt_zeros.
Qed.

Lemma findFrequencyPeaks_zeros (n : nat) (sampleRate fftSize peakCount : num) :
  findFrequencyPeaks (repeat 0%Z n) sampleRate fftSize peakCount = [].
Proof.
  unfold findFrequencyPeaks, firstPass.
  destruct (Math_floor _) as [lo | | |]; try reflexivity.
  destruct (Math_min _ _) as [hi | | |]; try reflexivity.
  rewrite fold_skip; [reflexivity |].
  apply forallb_forall. intros i _. apply negb_true_iff.
  apply localMax_zeros, smooth_zeros.
Qed.

(** *** A 2048-point transform at 44.1 kHz *)

Lemma ZceilZ (z : Z) : Zceil (IZR z) = z.
Proof. unfold Zceil. rewrite ZfloorNZ. lia. Qed.

Lemma bins_44k :
  (sampleRate44k / fftSize2048)%js = Fin binSize44k
  /\ Math_floor (Fin 80 / Fin binSize44k)%js = Fin 3
  /\ Math_floor (Fin 1200 / Fin binSize44k)%js = Fin 55.
Proof.
  unfold sampleRate44k, fftSize2048, binSize44k.
  split; [apply div_fin; lra |].
  rewrite !div_fin by lra. cbn [Math_floor].
  split; f_equal.
  - rewrite (Zfloor_eq 3); [reflexivity | split; lra].
  - rewrite (Zfloor_eq 55); [reflexivity | split; lra].
Qed.

Lemma firstPass_44k (frequencyData : list Z) :
  List.length frequencyData = 1024%nat ->
  firstPass frequencyData (Fin binSize44k) (Fin 3) (Fin 55)
  = fold_left (candidateStep frequencyData (smooth frequencyData) (Fin binSize44k) (Fin 3))
              (range 3 55) [].
Proof.
  intros L. unfold firstPass. rewrite L.
  change (Z.of_nat 1024 - 1)%Z with 1023%Z. unfold of_Z.
  cbn [Math_min ltb]. rewrite Rltb_true by lra.
  now rewrite ZfloorZ, ZceilZ.
Qed.

Lemma findFrequencyPeaks_44k (frequencyData : list Z) (peakCount : num) :
  List.length frequencyData = 1024%nat ->
  findFrequencyPeaks frequencyData sampleRate44k fftSize2048 peakCount
  = map peak_frequency
        (filterHarmonics
           (sort byMagnitude
                 (fold_left (candidateStep frequencyData (smooth frequencyData)
                                           (Fin binSize44k) (Fin 3))
                            (range 3 55) []))
           [] peakCount).
Proof.
  intros L. unfold findFrequencyPeaks.
  destruct bins_44k as [B [Lo Hi]]. rewrite B, Lo, Hi.
  now rewrite firstPass_44k by exact L.
Qed.

(** *** The notched peak *)

(** Replace [smooth data] by its value, computed once. *)
Ltac compute_smooth data :=
  let v := eval vm_compute in (smooth data) in
  let E := fresh "E" in
  assert (E : smooth data = v) by (vm_compute; reflexivity);
  rewrite E; clear E.

Lemma notchedPeak_firstPass (floor : Z) :
  (floor = 0 \/ floor = 12)%Z ->
  fold_left (candidateStep (notchedPeak floor) (smooth (notchedPeak floor))
                           (Fin binSize44k) (Fin 3))
            (range 3 55) []
  = [{| peak_frequency := Fin (20 * binSize44k); magnitude := Fin 75 |}].
Proof.
  intros F.
  change (range 3 55) with (range 3 20 ++ [20%Z] ++ range 21 55).
  rewrite !fold_left_app.
  destruct F; subst floor.
  all: match goal with |- context [smooth ?d] => compute_smooth d end.
  all: rewrite (fold_skip _ _ _ _ [] (range 3 20)) by (vm_compute; reflexivity).
  all: cbn [fold_left].
  all: rewrite (candidateStep_hit _ _ _ 3 [] 20 75 20 75);
    [| vm_compute; reflexivity | vm_compute; reflexivity | lia | lra | lia
     | vm_compute; reflexivity].
  all: rewrite (peakOffset_symmetric _ 20 40 50);
    [| vm_compute; reflexivity .. | lia].
  all: cbn zeta; cbn [absorb fst snd app]; unfold of_Z; cbn [add mul].
  all: rewrite fold_skip by (vm_compute; reflexivity).
  all: f_equal; f_equal; f_equal; lra.
Qed.

Lemma peakCount_not_reached (n : nat) :
  (n < 6)%nat -> (of_Z (Z.of_nat n) >=? defaultPeakCount)%js = false.
Proof.
  intros H. unfold of_Z, defaultPeakCount. cbn [geb leb].
  apply Rleb_false. apply IZR_lt. lia.
Qed.

Lemma filterHarmonics_single (peak : Peak) :
  filterHarmonics [peak] [] defaultPeakCount = [peak].
Proof.
  cbn [filterHarmonics List.existsb app List.length].
  now rewrite (peakCount_not_reached 1) by lia.
Qed.

Lemma notchedPeak_length (floor : Z) : List.length (notchedPeak floor) = 1024%nat.
Proof. reflexivity. Qed.

Lemma findFrequencyPeaks_notched (floor : Z) :
  (floor = 0 \/ floor = 12)%Z ->
  findFrequencyPeaks (notchedPeak floor) sampleRate44k fftSize2048 defaultPeakCount
  = [Fin (20 * binSize44k)].
Proof.
  intros F. rewrite findFrequencyPeaks_44k by apply notchedPeak_length.
  rewrite (notchedPeak_firstPass floor F).
  cbn [sort fold_right insert]. now rewrite filterHarmonics_single.
Qed.

Lemma notchedPeak_loud : isDataMostlySilent (notchedPeak 12) = false.
Proof. rewrite isDataMostlySilent_mean by discriminate. vm_compute. reflexivity. Qed.

(** *** The clipped peaks *)

Lemma clippedPeaks_firstPass :
  fold_left (candidateStep clippedPeaks (smooth clippedPeaks) (Fin binSize44k) (Fin 3))
            (range 3 55) []
  = [ {| peak_frequency := NaN; magnitude := Fin 255 |};
      {| peak_frequency := NaN; magnitude := Fin 255 |} ].
Proof.
  change (range 3 55)
    with (range 3 13 ++ [13%Z] ++ range 14 33 ++ [33%Z] ++ range 34 55).
  rewrite !fold_left_app.
  compute_smooth clippedPeaks.
  rewrite (fold_skip _ _ _ _ [] (range 3 13)) by (vm_compute; reflexivity).
  cbn [fold_left].
  rewrite (candidateStep_hit _ _ _ 3 [] 13 255 13 255);
    [| vm_compute; reflexivity | vm_compute; reflexivity | lia | lra | lia
     | vm_compute; reflexivity].
  rewrite (peakOffset_flat _ 13 255) by (vm_compute; reflexivity).
  cbn zeta. cbn [absorb fst snd app of_Z add mul].
  rewrite (fold_skip _ _ _ _ _ (range 14 33)) by (vm_compute; reflexivity).
  rewrite (candidateStep_hit _ _ _ 3 _ 33 255 33 255);
    [| vm_compute; reflexivity | vm_compute; reflexivity | lia | lra | lia
     | vm_compute; reflexivity].
  rewrite (peakOffset_flat _ 33 255) by (vm_compute; reflexivity).
  cbn zeta. unfold of_Z.
  cbn [absorb semitoneDistance peak_frequency div Math_log2 mul add Math_abs ltb
       fst snd app].
  now rewrite fold_skip by (vm_compute; reflexivity).
Qed.

Lemma findFrequencyPeaks_clipped :
  findFrequencyPeaks clippedPeaks sampleRate44k fftSize2048 defaultPeakCount = [NaN; NaN].
Proof.
  rewrite findFrequencyPeaks_44k by reflexivity.
  rewrite clippedPeaks_firstPass.
  cbn [sort fold_right insert]. unfold byMagnitude at 1.
  cbn [magnitude sub add neg gtb ltb]. rewrite Rltb_false by lra.
  cbn [filterHarmonics List.existsb app List.length].
  rewrite (peakCount_not_reached 1) by lia.
  change (range 2 5) with [2%Z; 3%Z; 4%Z].
  unfold isHarmonicOf. change (range 2 5) with [2%Z; 3%Z; 4%Z].
  cbn [List.existsb peak_frequency mul div sub add neg Math_abs ltb orb].
  cbn [app List.length]. rewrite (peakCount_not_reached 2) by lia.
  reflexivity.
Qed.

Lemma clippedPeaks_loud : isDataMostlySilent clippedPeaks = false.
Proof. rewrite isDataMostlySilent_mean by discriminate. vm_compute. reflexivity. Qed.

(** ** The claims on the peak finder and on [detectChord] *)

(** C2: on a spectrum with two clipped, flat-topped peaks the parabolic
    interpolation divides zero by zero; the peak finder returns two
    frequencies that are NaN, which the semitone test never rejects and
    which are not a semitone apart. *)
Theorem clipped_peaks_are_not_separated :
  isDataMostlySilent clippedPeaks = false
  /\ findFrequencyPeaks clippedPeaks sampleRate44k fftSize2048 defaultPeakCount
     = [NaN; NaN]
  /\ separated NaN NaN = false.
Proof.
  split; [exact clippedPeaks_loud |].
  split; [exact findFrequencyPeaks_clipped | reflexivity].
Qed.

(** C9: around bin 20 of the notched peak no raw bin exceeds the smoothed
    value, so the magnitude recorded for the accepted peak is the smoothed
    value 75, while the raw spectrum at the peak bin is 50. *)
Theorem recorded_magnitude_is_smoothed :
  firstPass (notchedPeak 12) (Fin binSize44k) (Fin 3) (Fin 55)
  = [{| peak_frequency := Fin (20 * binSize44k); magnitude := Fin 75 |}]
  /\ refinePeak (notchedPeak 12) (smooth (notchedPeak 12)) 20 = (20%Z, Fin 75)
  /\ get (smooth (notchedPeak 12)) 20 = Some 75%Z
  /\ get (notchedPeak 12) 20 = Some 50%Z.
Proof.
  split.
  - rewrite firstPass_44k by apply notchedPeak_length.
    apply notchedPeak_firstPass. now right.
  - split.
    + rewrite (refinePeak_Z _ _ 20 75) by (vm_compute; reflexivity).
      replace (refinePeakZ (notchedPeak 12) 75 20) with (20%Z, 75%Z)
        by (vm_compute; reflexivity).
      reflexivity.
    + split; vm_compute; reflexivity.
Qed.

(** C7, the claim as stated fails: the notched peak over a floor of zero
    has a mean below 10, yet the peak finder returns a peak for it; the
    silence test is in [detectChord], not in the peak finder. *)
Lemma peak_finder_has_no_silence_test :
  notchedPeak 0 <> []
  /\ (total (notchedPeak 0) < 10 * Z.of_nat (List.length (notchedPeak 0)))%Z
  /\ isDataMostlySilent (notchedPeak 0) = true
  /\ findFrequencyPeaks (notchedPeak 0) sampleRate44k fftSize2048 defaultPeakCount
     = [Fin (20 * binSize44k)]
  /\ findFrequencyPeaks (notchedPeak 0) sampleRate44k fftSize2048 defaultPeakCount <> [].
Proof.
  split; [discriminate |].
  split; [vm_compute; reflexivity |].
  split; [rewrite isDataMostlySilent_mean by discriminate; vm_compute; reflexivity |].
  rewrite findFrequencyPeaks_notched by now left.
  split; [reflexivity | discriminate].
Qed.

(** C7, amended: for every non-empty spectrum whose mean magnitude is below
    10, [detectChord] returns the empty chord, whatever the peak finder
    would return (it is not called); on a spectrum whose every bin is 0 the
    peak finder itself returns the empty sequence. *)
Theorem silence_fast_path :
  (forall (frequencyData : list Z) (sampleRate fftSize : num),
      frequencyData <> [] ->
      (total frequencyData < 10 * Z.of_nat (List.length frequencyData))%Z ->
      detectChord frequencyData sampleRate fftSize = Ok emptyChord)
  /\ (forall (n : nat) (sampleRate fftSize peakCount : num),
        findFrequencyPeaks (repeat 0%Z n) sampleRate fftSize peakCount = []).
Proof.
  split; [exact detectChord_silent | exact findFrequencyPeaks_zeros].
Qed.

Lemma silence_fast_path_witness :
  detectChord (notchedPeak 0) sampleRate44k fftSize2048 = Ok emptyChord.
Proof.
  apply (proj1 silence_fast_path).
  - discriminate.
  - vm_compute. reflexivity.
Defined.

(** C10: when the spectrum is not mostly silent and the peak finder returns
    exactly one frequency, [detectChord] returns the name of that
    frequency's note as it is (both spellings when there are two) with the
    empty formula; [identifyChord] on that single note would give the
    first spelling and the formula "1". *)
Theorem detectChord_single_peak
        (frequencyData : list Z) (sampleRate fftSize f : num) :
  isDataMostlySilent frequencyData = false ->
  findFrequencyPeaks frequencyData sampleRate fftSize defaultPeakCount = [f] ->
  detectChord frequencyData sampleRate fftSize
  = Ok {| chord_name := name (findClosestNote f);
          chord_formula := "";
          notes := [findClosestNote f];
          frequencies := [f] |}
  /\ forall nm, name (findClosestNote f) = Some nm ->
                identifyChord [findClosestNote f]
                = Ok {| match_name := firstSpelling nm; match_formula := "1" |}.
Proof.
  intros S P. split.
  - unfold detectChord. rewrite S, P. reflexivity.
  - intros nm E. cbn [identifyChord]. now rewrite E.
Qed.

Lemma closestNote_bin20 :
  name (findClosestNote (Fin (20 * binSize44k))) = Some "F#/Gb".
Proof.
  unfold binSize44k. rewrite findClosestNote_fin by lra.
  rewrite (halfSteps_eq _ 0 19);
    [reflexivity | apply Rdiv_lt_0_compat; lra | reflexivity
     | simpl Nat.add; split; lra].
Qed.

Lemma detectChord_single_peak_witness :
  detectChord (notchedPeak 12) sampleRate44k fftSize2048
  = Ok {| chord_name := name (findClosestNote (Fin (20 * binSize44k)));
          chord_formula := "";
          notes := [findClosestNote (Fin (20 * binSize44k))];
          frequencies := [Fin (20 * binSize44k)] |}
  /\ name (findClosestNote (Fin (20 * binSize44k))) = Some "F#/Gb"
  /\ identifyChord [findClosestNote (Fin (20 * binSize44k))]
     = Ok {| match_name := firstSpelling "F#/Gb"; match_formula := "1" |}.
Proof.
  destruct (detectChord_single_peak (notchedPeak 12) sampleRate44k fftSize2048
              (Fin (20 * binSize44k)) notchedPeak_loud
              (findFrequencyPeaks_notched 12 (or_intror eq_refl))) as [D I].
  split; [exact D |]. split; [exact closestNote_bin20 |].
  apply I. exact closestNote_bin20.
Defined.

(** * Further properties of the detector *)

(** ** The silence test *)

(** The silence test compares the mean with 10: a non-empty spectrum is
    mostly silent exactly when the sum of its bins is below ten times its
    length; the empty spectrum, whose mean is 0 / 0, is not silent. *)
Theorem silence_is_mean_below_10 (frequencyData : list Z) :
  frequencyData <> [] ->
  (isDataMostlySilent frequencyData = true
   <-> (total frequencyData < 10 * Z.of_nat (List.length frequencyData))%Z)
  /\ isDataMostlySilent [] = false.
Proof.
  intros Hne. split; [| exact isDataMostlySilent_empty].
  rewrite (isDataMostlySilent_mean _ Hne). apply Z.ltb_lt.
Qed.

Lemma silence_is_mean_below_10_witness :
  isDataMostlySilent [9; 10; 10]%Z = true
  <-> (total [9; 10; 10] < 10 * Z.of_nat (List.length [9; 10; 10]%Z))%Z.
Proof.
  apply (silence_is_mean_below_10 [9; 10; 10]%Z). discriminate.
Defined.

(** ** The second pass *)

Lemma filterHarmonics_length (peaks filteredPeaks : list Peak) :
  (List.length filteredPeaks < 6)%nat ->
  (List.length (filterHarmonics peaks filteredPeaks defaultPeakCount) <= 6)%nat.
Proof.
  revert filteredPeaks. induction peaks as [| peak rest IH]; intros filteredPeaks L.
  - cbn. lia.
  - cbn [filterHarmonics].
    destruct (List.existsb _ filteredPeaks); [now apply IH |].
    destruct (of_Z (Z.of_nat (List.length (filteredPeaks ++ [peak]))) >=? defaultPeakCount)%js
      eqn:G.
    + rewrite length_app. cbn [List.length]. lia.
    + apply IH. rewrite length_app in *. cbn [List.length] in *.
      unfold of_Z, defaultPeakCount in G. cbn [geb leb] in G.
      destruct (Nat.lt_ge_cases (List.length filteredPeaks + 1) 6) as [H | H]; [exact H |].
      exfalso. rewrite Rleb_true in G; [discriminate |].
      apply IZR_le. lia.
Qed.

Lemma findFrequencyPeaks_length_bound
      (frequencyData : list Z) (sampleRate fftSize : num) :
  (List.length (findFrequencyPeaks frequencyData sampleRate fftSize defaultPeakCount)
   <= 6)%nat.
Proof.
  unfold findFrequencyPeaks. rewrite length_map.
  apply filterHarmonics_length. cbn. lia.
Qed.

(** The peak finder returns at most six frequencies. *)
Theorem findFrequencyPeaks_at_most_six
        (frequencyData : list Z) (sampleRate fftSize : num) :
  (List.length (findFrequencyPeaks frequencyData sampleRate fftSize defaultPeakCount)
   <= 6)%nat.
Proof.
  unfold findFrequencyPeaks. rewrite length_map.
  apply filterHarmonics_length. cbn. lia.
Qed.

Lemma filterHarmonics_prefix (peaks filteredPeaks : list Peak) (peakCount : num) :
  exists tail, filterHarmonics peaks filteredPeaks peakCount = filteredPeaks ++ tail
               /\ forall p, In p tail -> In p peaks.
Proof.
  revert filteredPeaks. induction peaks as [| peak rest IH]; intros filteredPeaks.
  - exists []. cbn. now rewrite app_nil_r.
  - cbn [filterHarmonics].
    destruct (List.existsb _ filteredPeaks).
    + destruct (IH filteredPeaks) as [tail [E S]]. exists tail.
      split; [exact E |]. intros p Hp. right. now apply S.
    + destruct (_ >=? peakCount)%js.
      * exists [peak]. split; [reflexivity |]. intros p [<- | []]. now left.
      * destruct (IH (filteredPeaks ++ [peak])) as [tail [E S]].
        exists (peak :: tail). split; [now rewrite E, <- app_assoc |].
        intros p [<- | Hp]; [now left | right; now apply S].
Qed.

(** Harmonic suppression never drops the strongest peak: the peak finder
    returns nothing exactly when the first pass accepts no peak, the first
    frequency returned is that of the first peak in magnitude order, and
    every frequency returned is the frequency of an accepted peak. *)
Theorem strongest_peak_survives
        (frequencyData : list Z) (sampleRate fftSize : num) :
  let binSize := (sampleRate / fftSize)%js in
  let peaks := firstPass frequencyData binSize (Math_floor (Fin 80 / binSize)%js)
                         (Math_floor (Fin 1200 / binSize)%js) in
  let result := findFrequencyPeaks frequencyData sampleRate fftSize defaultPeakCount in
  (result = [] <-> peaks = [])
  /\ (forall p rest, sort byMagnitude peaks = p :: rest ->
                     exists tail, result = peak_frequency p :: tail)
  /\ (forall f, In f result -> exists p, In p peaks /\ peak_frequency p = f).
Proof.
  intros binSize peaks result.
  assert (Head : forall p rest, sort byMagnitude peaks = p :: rest ->
                                exists tail, result = peak_frequency p :: tail).
  { intros p rest E. unfold result, findFrequencyPeaks. fold binSize. fold peaks.
    rewrite E. cbn [filterHarmonics List.existsb app List.length].
    rewrite (peakCount_not_reached 1) by lia.
    destruct (filterHarmonics_prefix rest [p] defaultPeakCount) as [tail [Et _]].
    rewrite Et. cbn [app map]. now exists (map peak_frequency tail). }
  split; [| split; [exact Head |]].
  - split.
    + intros E. destruct (sort byMagnitude peaks) as [| p rest] eqn:S.
      * destruct peaks as [| q peaks']; [reflexivity |].
        pose proof (sort_length byMagnitude (q :: peaks')) as L.
        rewrite S in L. discriminate.
      * destruct (Head p rest eq_refl) as [tail Et]. rewrite Et in E. discriminate.
    + intros E. unfold result, findFrequencyPeaks. fold binSize. fold peaks.
      now rewrite E.
  - intros f Hf. unfold result, findFrequencyPeaks in Hf. fold binSize in Hf.
    fold peaks in Hf. apply in_map_iff in Hf as [p [Ep Hp]].
    destruct (filterHarmonics_prefix (sort byMagnitude peaks) [] defaultPeakCount)
      as [tail [Et St]].
    rewrite Et in Hp. cbn [app] in Hp. apply St in Hp.
    exists p. split; [| exact Ep]. exact (proj1 (sort_In byMagnitude p peaks) Hp).
Qed.

(** ** The first pass: which bins it visits *)

Lemma Math_min_fin (a b : R) : Math_min (Fin a) (Fin b) = Fin (Rmin a b).
Proof.
  cbn [Math_min ltb]. unfold Rltb, Rmin.
  destruct (Rlt_dec b a), (Rle_dec a b); try reflexivity; lra.
Qed.

Lemma range_empty (a b : Z) : (b <= a)%Z -> range a b = [].
Proof. intros H. unfold range. now replace (Z.to_nat (b - a)) with 0%nat by lia. Qed.


Lemma firstPass_no_bins (frequencyData : list Z) (binSize : num) (lo hi : R) :
  hi <= lo ->
  firstPass frequencyData binSize (Math_floor (Fin lo)) (Math_floor (Fin hi)) = [].
Proof.
  intros H. unfold firstPass. cbn [Math_floor]. unfold of_Z. rewrite Math_min_fin.
  rewrite ZfloorZ, range_empty; [reflexivity |].
  apply Z.le_trans with (Zceil (IZR (Zfloor hi))).
  - apply Zceil_le. apply Rmin_r.
  - rewrite ZceilZ. now apply Zfloor_le.
Qed.

Lemma findFrequencyPeaks_degenerate
      (frequencyData : list Z) (sampleRate fftSize peakCount : num) :
  (forall b, (sampleRate / fftSize)%js = Fin b -> b <= 0) ->
  findFrequencyPeaks frequencyData sampleRate fftSize peakCount = [].
Proof.
  intros H. unfold findFrequencyPeaks.
  destruct (sampleRate / fftSize)%js as [b | | |] eqn:E.
  - specialize (H b eq_refl). destruct H as [H | H].
    + rewrite !div_fin by lra. rewrite firstPass_no_bins; [reflexivity |].
      assert (K : / b < 0) by now apply Rinv_lt_0_compat.
      unfold Rdiv. nra.
    + subst b. cbn [div]. rewrite Reqb_true by reflexivity.
      unfold signed_inf. rewrite !Rltb_true by lra. reflexivity.
  - cbn [div]. rewrite firstPass_no_bins; [reflexivity | lra].
  - cbn [div]. rewrite firstPass_no_bins; [reflexivity | lra].
  - reflexivity.
Qed.

(** Without a positive finite bin width (sample rate over transform size)
    the peak finder visits no bin and returns nothing: a zero or negative
    transform size or sample rate, an infinite or undefined ratio. *)
Theorem degenerate_resolution_gives_no_peak
        (frequencyData : list Z) (sampleRate fftSize peakCount : num) :
  (forall b, (sampleRate / fftSize)%js = Fin b -> b <= 0) ->
  findFrequencyPeaks frequencyData sampleRate fftSize peakCount = [].
Proof. exact (findFrequencyPeaks_degenerate frequencyData sampleRate fftSize peakCount). Qed.

Lemma degenerate_resolution_gives_no_peak_witness :
  findFrequencyPeaks clippedPeaks sampleRate44k (Fin 0) defaultPeakCount = [].
Proof.
  apply degenerate_resolution_gives_no_peak.
  intros b E. unfold sampleRate44k in E. cbn [div] in E.
  rewrite Reqb_true in E by reflexivity. unfold signed_inf in E.
  rewrite Rltb_true in E by lra. discriminate.
Defined.

(** ** Short spectra *)

Lemma smoothedAt_short (frequencyData : list Z) (i : Z) :
  (List.length frequencyData <= 6)%nat -> smoothedAt frequencyData i = 0%Z.
Proof.
  intros L. unfold smoothedAt, windowSize.
  destruct (Z.leb 3 i) eqn:A; [| reflexivity].
  destruct (Z.ltb i (Z.of_nat (List.length frequencyData) - 3)) eqn:B; [| reflexivity].
  apply Z.leb_le in A. apply Z.ltb_lt in B. lia.
Qed.

Lemma findFrequencyPeaks_flat (frequencyData : list Z) (sampleRate fftSize peakCount : num) :
  Forall (fun v => v = 0%Z) (smooth frequencyData) ->
  findFrequencyPeaks frequencyData sampleRate fftSize peakCount = [].
Proof.
  intros H. unfold findFrequencyPeaks, firstPass.
  destruct (Math_floor _) as [lo | | |]; try reflexivity.
  destruct (Math_min _ _) as [hi | | |]; try reflexivity.
  rewrite fold_skip; [reflexivity |].
  apply forallb_forall. intros i _. apply negb_true_iff.
  now apply localMax_zeros.
Qed.

(** A spectrum of fewer than seven bins has no smoothed bin, so no peak:
    [detectChord] returns the empty chord for it, whether it is silent or
    not, and for the empty spectrum in particular. *)
Theorem short_spectrum_gives_empty_chord
        (frequencyData : list Z) (sampleRate fftSize : num) :
  (List.length frequencyData <= 6)%nat ->
  detectChord frequencyData sampleRate fftSize = Ok emptyChord.
Proof.
  intros L. unfold detectChord.
  destruct (isDataMostlySilent frequencyData); [reflexivity |].
  rewrite findFrequencyPeaks_flat; [reflexivity |].
  unfold smooth. rewrite Forall_map, Forall_forall. intros i _.
  now apply smoothedAt_short.
Qed.

Lemma short_spectrum_gives_empty_chord_witness :
  detectChord [255; 255; 255; 255; 255; 255]%Z sampleRate44k (Fin 12) = Ok emptyChord.
Proof. apply short_spectrum_gives_empty_chord. cbn. lia. Defined.

(** ** The band of the returned frequencies *)












(** ** More on the note mapper *)










(** ** More on the chord matcher *)



(** Notes given from the lowest to the highest are not reordered by the
    weight sort, so the roots are tried in the order of the notes. *)
Theorem ascending_notes_keep_their_order (notes : list ChordNote) (fs : list R) :
  map frequency notes = map Fin fs -> ascending fs ->
  sortedInfo notes = map noteInfoOf notes
  /\ rootsToTry (sortedInfo notes) = set_of [] (filter_truthy (map name notes)).
Proof.
  intros E A. rewrite (sortedInfo_ascending notes fs E A).
  split; [reflexivity |]. now rewrite rootsToTry_names, names_of_infos.
Qed.

Lemma ascending_notes_keep_their_order_witness :
  rootsToTry (sortedInfo dMajorTriad)
  = set_of [] (filter_truthy (map name dMajorTriad)).
Proof.
  apply (ascending_notes_keep_their_order dMajorTriad [293.66; 369.99; 440.00]).
  - reflexivity.
  - cbn. lra.
Defined.

(** *** The shape of the result *)

Lemma split_pieces_without (c : ascii) (s v : string) :
  In v (split_char c s) -> includes_char c v = false.
Proof.
  revert v. induction s as [| d s IH]; intros v H.
  - cbn in H. destruct H as [<- | []]. reflexivity.
  - cbn [split_char] in H. destruct (Ascii.eqb d c) eqn:E.
    + destruct H as [<- | H]; [reflexivity | now apply IH].
    + destruct (split_char c s) as [| piece pieces] eqn:S.
      * destruct H as [<- | []]. cbn [includes_char]. now rewrite E.
      * destruct H as [<- | H].
        -- cbn [includes_char]. rewrite E. apply IH. now left.
        -- apply IH. now right.
Qed.

Lemma variantsOf_without (s v : string) :
  In v (variantsOf s) -> includes_char slash v = false.
Proof.
  unfold variantsOf. destruct (includes_char slash s) eqn:E.
  - apply split_pieces_without.
  - intros [<- | []]. exact E.
Qed.

Lemma candidateRoots_without (l : list NoteInfo) (root : string) :
  In root (candidateRoots l) -> includes_char slash root = false.
Proof.
  unfold candidateRoots. rewrite in_flat_map. intros [s [_ H]].
  now apply variantsOf_without in H.
Qed.

Lemma findIndex_In (l : list string) (root : string) (i k : Z) :
  findIndex l root i = Some k -> In root l.
Proof.
  revert i. induction l as [| x l IH]; intros i; [discriminate |].
  cbn [findIndex]. destruct (String.eqb x root) eqn:E.
  - intros _. left. now apply String.eqb_eq.
  - intros H. right. now apply (IH (i + 1)%Z).
Qed.

Lemma calculateChordNotes_unknown (root : string) (formula : list string) :
  includes_char slash root = false -> ~ In root sharpNames ->
  calculateChordNotes root formula = [].
Proof.
  intros S N. unfold calculateChordNotes.
  destruct (String.eqb root ""); [reflexivity |]. rewrite S.
  destruct (findIndex sharpNames root 0) as [k |] eqn:E; [| reflexivity].
  exfalso. apply N. now apply (findIndex_In _ _ 0%Z k).
Qed.

Lemma noteMatched_nil (note : option string) : noteMatched [] note = false.
Proof.
  unfold noteMatched. induction (variantsOf (or_empty note)) as [| v l IH]; [reflexivity |].
  cbn [List.existsb includes]. exact IH.
Qed.

Lemma fold_scoreStep_nil (l : list NoteInfo) (st : num * nat) :
  snd (fold_left (scoreStep []) l st) = snd st.
Proof.
  revert st. induction l as [| info l IH]; intros st; [reflexivity |].
  cbn [fold_left]. rewrite IH. unfold scoreStep. now rewrite noteMatched_nil.
Qed.

Lemma scoreOf_matched (l : list NoteInfo) (root : string) (formula : list string) :
  snd (scoreOf l root formula)
  = snd (fold_left (scoreStep (calculateChordNotes root formula)) l (Fin 0, 0%nat)).
Proof. unfold scoreOf. now destruct (fold_left _ l _). Qed.

Lemma CHORD_FORMULAS_nonempty (suffix : string) (formula : list string) :
  In (suffix, formula) CHORD_FORMULAS -> (3 <= List.length formula)%nat.
Proof.
  unfold CHORD_FORMULAS. cbn [In].
  intros H. repeat (destruct H as [[= <- <-] | H]; [cbn; lia |]). contradiction.
Qed.

(** A template on a root that is not one of the twelve sharp names (a flat
    spelling such as "Bb", for instance) expects no note, matches none and
    is never accepted. *)
Lemma unknown_root_is_skipped (l : list NoteInfo) (best : Best)
      (root suffix : string) (formula : list string) :
  formula <> [] -> calculateChordNotes root formula = [] ->
  tryTemplate l root best (suffix, formula) = best.
Proof.
  intros Hf E. unfold tryTemplate.
  pose proof (scoreOf_matched l root formula) as M.
  rewrite E, fold_scoreStep_nil in M. cbn [snd] in M.
  destruct (scoreOf l root formula) as [score matched]. cbn [snd] in M. subst matched.
  rewrite minRequired_check.
  replace (Nat.leb _ 0) with false; [reflexivity |].
  symmetry. apply Nat.leb_gt. destruct formula; [contradiction | cbn [List.length]; lia].
Qed.

Lemma search_shape (notes : list ChordNote) :
  search notes = initialBest
  \/ exists root suffix formula,
       In root sharpNames /\ In (suffix, formula) CHORD_FORMULAS
       /\ snd (fst (search notes)) = (root ++ suffix)%string
       /\ snd (search notes) = join "-" formula.
Proof.
  rewrite search_candidates.
  apply (fold_left_invariant
           (fun best => best = initialBest
                        \/ exists root suffix formula,
                             In root sharpNames /\ In (suffix, formula) CHORD_FORMULAS
                             /\ snd (fst best) = (root ++ suffix)%string
                             /\ snd best = join "-" formula)); [| now left].
  intros best [root [suffix formula]] Hc K.
  apply candidates_In in Hc as [Hr Hf]. cbn [fst snd] in Hr, Hf.
  pose proof (CHORD_FORMULAS_nonempty _ _ Hf) as Len.
  unfold tryCandidate. cbn [fst snd].
  destruct (in_dec string_dec root sharpNames) as [I | N].
  - unfold tryTemplate. destruct (scoreOf _ root formula) as [score matched].
    destruct (_ && _)%bool; [| exact K].
    right. exists root, suffix, formula. now repeat split.
  - rewrite unknown_root_is_skipped; [exact K | |].
    + destruct formula; [cbn in Len; lia | discriminate].
    + apply calculateChordNotes_unknown; [| exact N].
      now apply (candidateRoots_without (sortedInfo notes)).
Qed.

Lemma identifyChord_shape_cases (first second : ChordNote) (rest : list ChordNote) :
  identifyChord (first :: second :: rest) = Ok (impliedUnison first)
  \/ exists root suffix formula,
       In root sharpNames /\ In (suffix, formula) CHORD_FORMULAS
       /\ identifyChord (first :: second :: rest) = Ok (chordOf (root, (suffix, formula))).
Proof.
  pose proof (search_shape (first :: second :: rest)) as K.
  unfold identifyChord.
  destruct (search (first :: second :: rest)) as [[score nm] fm].
  destruct (score >? Fin 0)%js eqn:G.
  - destruct K as [K | [root [suffix [formula [Hr [Hf [En Ef]]]]]]].
    + injection K as -> _ _. cbn in G. rewrite Rltb_false in G by lra. discriminate.
    + right. exists root, suffix, formula. cbn [fst snd] in En, Ef. subst nm fm.
      now repeat split.
  - left. unfold impliedUnison. now rewrite cleanName_firstSpelling.
Qed.

(** On two or more notes the chord matcher returns either the first note
    of the input as an implied unison, or a name made of one of the twelve
    sharp-spelled roots and a suffix of the chord table, with the formula
    of that entry; a root is never spelled with a flat. *)
Theorem identifyChord_result_shape (first second : ChordNote) (rest : list ChordNote) :
  identifyChord (first :: second :: rest) = Ok (impliedUnison first)
  \/ exists root suffix formula,
       In root sharpNames /\ In (suffix, formula) CHORD_FORMULAS
       /\ identifyChord (first :: second :: rest) = Ok (chordOf (root, (suffix, formula))).
Proof. exact (identifyChord_shape_cases first second rest). Qed.

Lemma search_accepts_sound_candidates (notes : list ChordNote) :
  Forall finiteNote notes -> (List.length notes < 40)%nat ->
  let l := sortedInfo notes in
  exists (b : R) (nm fm : string),
    search notes = (Fin b, nm, fm) /\ -1 <= b
    /\ (b = -1
        \/ exists c, In c (candidates l)
                     /\ hopeless (map info_name l) c = false
                     /\ nm = match_name (chordOf c) /\ fm = match_formula (chordOf c)).
Proof.
  intros F L l.
  pose proof (finiteWeights_sorted notes F) as W. fold l in W.
  assert (Ll : (List.length l < 40)%nat).
  { unfold l, sortedInfo. now rewrite sort_length, length_map. }
  pose proof (totalWeight_bounds l W) as [_ T].
  assert (T' : 2 * totalWeight l < 1).
  { apply lt_INR in Ll. rewrite (INR_IZR_INZ 40) in Ll.
    change (IZR (Z.of_nat 40)) with 40 in Ll. lra. }
  rewrite search_candidates. fold l.
  apply (fold_left_invariant
           (fun best => exists (b : R) (nm fm : string),
                best = (Fin b, nm, fm) /\ -1 <= b
                /\ (b = -1
                    \/ exists c, In c (candidates l)
                                 /\ hopeless (map info_name l) c = false
                                 /\ nm = match_name (chordOf c)
                                 /\ fm = match_formula (chordOf c)))).
  - intros best c Hc [b [nm [fm [-> [B K]]]]].
    rewrite (tryCandidate_fin l c b nm fm W). cbn zeta.
    destruct (Nat.leb _ _) eqn:M; [| exists b, nm, fm; now repeat split].
    destruct (Rltb b _) eqn:S; [| exists b, nm, fm; now repeat split].
    cbn [andb]. apply Rltb_lt in S. apply Nat.leb_le in M.
    eexists _, _, _. split; [reflexivity |]. split; [lra |].
    right. exists c. split; [exact Hc |]. split; [| now split].
    unfold hopeless. apply orb_false_iff. split.
    + apply Nat.leb_gt.
      destruct (Nat.lt_ge_cases (missingCount (map info_name l) (fst c) (snd (snd c))) 1)
        as [H | H]; [exact H | exfalso].
      pose proof (scoreSum_le (matchFlags (map info_name l) (fst c) (snd (snd c))) l W).
      assert (1 <= INR (missingCount (map info_name l) (fst c) (snd (snd c)))).
      { change 1 with (INR 1). now apply le_INR. }
      lra.
    + apply Nat.ltb_ge. exact M.
  - exists (-1), "", "". split; [reflexivity |]. split; [lra | now left].
Qed.

(** With finite frequencies and fewer than forty notes, a chord that the
    matcher names (anything but the implied unison of the first note) is a
    candidate whose essential notes - root, third and fifth as far as the
    template has them - are all among the detected notes and which matches
    at least min(2, formula length) of them. *)
Theorem named_chord_has_its_essential_notes
        (first second : ChordNote) (rest : list ChordNote) :
  let notes := first :: second :: rest in
  let names := map info_name (sortedInfo notes) in
  Forall finiteNote notes -> (List.length notes < 40)%nat ->
  identifyChord notes = Ok (impliedUnison first)
  \/ exists c, In c (candidates (sortedInfo notes))
               /\ missingCount names (fst c) (snd (snd c)) = 0%nat
               /\ (Nat.min 2 (List.length (snd (snd c)))
                   <= countTrue (matchFlags names (fst c) (snd (snd c))))%nat
               /\ identifyChord notes = Ok (chordOf c).
Proof.
  intros notes names F L.
  destruct (search_accepts_sound_candidates notes F L) as [b [nm [fm [E [B K]]]]].
  unfold notes, identifyChord. fold notes. rewrite E.
  destruct (Fin b >? Fin 0)%js eqn:G.
  - cbn in G. apply Rltb_lt in G.
    destruct K as [K | [c [Hc [Hh [-> ->]]]]]; [lra |].
    right. exists c. split; [exact Hc |].
    unfold hopeless in Hh. apply orb_false_iff in Hh as [H1 H2].
    apply Nat.leb_gt in H1. apply Nat.ltb_ge in H2.
    fold names in H1, H2. split; [lia |]. split; [exact H2 | reflexivity].
  - left. unfold impliedUnison. now rewrite cleanName_firstSpelling.
Qed.

Lemma named_chord_has_its_essential_notes_witness :
  identifyChord dMajorTriad = Ok (impliedUnison (note "D" 4 293.66))
  \/ exists c, In c (candidates (sortedInfo dMajorTriad))
               /\ missingCount (map info_name (sortedInfo dMajorTriad))
                               (fst c) (snd (snd c)) = 0%nat
               /\ (Nat.min 2 (List.length (snd (snd c)))
                   <= countTrue (matchFlags (map info_name (sortedInfo dMajorTriad))
                                            (fst c) (snd (snd c))))%nat
               /\ identifyChord dMajorTriad = Ok (chordOf c).
Proof.
  apply (named_chord_has_its_essential_notes (note "D" 4 293.66)
           (note "F#/Gb" 4 369.99) [note "A" 4 440.00]).
  - repeat constructor; eexists; reflexivity.
  - cbn. lia.
Defined.

(** ** Smoothing *)

Lemma window_sum_bounds (frequencyData : list Z) (M : Z) (l : list Z) (a : Z) :
  Forall (fun v => 0 <= v <= M)%Z frequencyData -> (0 <= M)%Z ->
  (a <= fold_left (fun s j => (s + match get frequencyData j with
                                   | Some v => v
                                   | None => 0
                                   end)%Z) l a
   <= a + Z.of_nat (List.length l) * M)%Z.
Proof.
  intros H HM. rewrite Forall_forall in H.
  revert a. induction l as [| j l IH]; intros a.
  - cbn. lia.
  - cbn [fold_left List.length].
    assert (B : (0 <= match get frequencyData j with Some v => v | None => 0 end <= M)%Z).
    { destruct (get frequencyData j) as [v |] eqn:G; [| lia].
      apply H. now apply get_In in G. }
    specialize (IH (a + match get frequencyData j with Some v => v | None => 0 end)%Z).
    nia.
Qed.

Lemma range_length (a b : Z) : List.length (range a b) = Z.to_nat (b - a).
Proof. unfold range. now rewrite length_map, length_seq. Qed.

Lemma smoothing_bound (frequencyData : list Z) (M i : Z) :
  Forall (fun v => 0 <= v <= M)%Z frequencyData -> (0 <= M <= 255)%Z ->
  (0 <= smoothedAt frequencyData i <= M)%Z.
Proof.
  intros H HM. unfold smoothedAt. destruct (_ && _)%bool; [| lia].
  pose proof (window_sum_bounds frequencyData M
                (range (i - windowSize) (i + windowSize + 1)) 0 H ltac:(lia)) as B.
  rewrite range_length in B. unfold windowSize in *.
  replace (Z.of_nat (Z.to_nat (i + 3 + 1 - (i - 3)))) with 7%Z in B by lia.
  set (sum := fold_left _ _ 0%Z) in *.
  replace (3 * 2 + 1)%Z with 7%Z by lia.
  assert (D : (0 <= sum / 7 <= M)%Z).
  { split; [apply Z.div_pos; lia |]. apply Z.div_le_upper_bound; lia. }
  rewrite Z.mod_small by lia. exact D.
Qed.

(** Smoothing keeps the length of the spectrum, leaves the three bins at
    either end at zero, and stays between zero and the largest bin of a
    Uint8 spectrum: the store into the Uint8Array never wraps. *)
Theorem smoothing_is_bounded (frequencyData : list Z) (M i : Z) :
  Forall (fun v => 0 <= v <= M)%Z frequencyData -> (0 <= M <= 255)%Z ->
  List.length (smooth frequencyData) = List.length frequencyData
  /\ (0 <= smoothedAt frequencyData i <= M)%Z
  /\ ((i < 3 \/ Z.of_nat (List.length frequencyData) - 3 <= i)%Z ->
      smoothedAt frequencyData i = 0%Z).
Proof.
  intros H HM. split; [| split].
  - unfold smooth. rewrite length_map, range_length. lia.
  - now apply smoothing_bound.
  - intros E. unfold smoothedAt, windowSize.
    destruct (Z.leb 3 i) eqn:A; [| reflexivity].
    destruct (Z.ltb i _) eqn:B; [| reflexivity].
    apply Z.leb_le in A. apply Z.ltb_lt in B. lia.
Qed.

Lemma smoothing_is_bounded_witness :
  (0 <= smoothedAt clippedPeaks 12 <= 255)%Z.
Proof.
  apply (smoothing_is_bounded clippedPeaks 255 12).
  - unfold clippedPeaks. rewrite !Forall_app.
    repeat split; apply Forall_forall; intros v Hv; apply repeat_spec in Hv; lia.
  - lia.
Defined.

(** ** The dominant frequency *)

Lemma scanMax_spec (frequencyData : list Z) :
  forall (i maxIndex maxValue k v : Z),
    scanMax frequencyData i maxIndex maxValue = (k, v) ->
    (maxValue <= v)%Z
    /\ Forall (fun w => w <= v)%Z frequencyData
    /\ ((k = maxIndex /\ v = maxValue)
        \/ exists n : nat,
             k = (i + Z.of_nat n)%Z /\ nth_error frequencyData n = Some v
             /\ (maxValue < v)%Z
             /\ forall (m : nat) (w : Z),
                  (m < n)%nat -> nth_error frequencyData m = Some w -> (w < v)%Z).
Proof.
  induction frequencyData as [| v0 rest IH]; intros i maxIndex maxValue k v E.
  - cbn in E. injection E as <- <-. split; [lia |]. split; [constructor | now left].
  - cbn [scanMax] in E. destruct (Z.ltb maxValue v0) eqn:C.
    + apply Z.ltb_lt in C. destruct (IH _ _ _ _ _ E) as [B [F K]].
      split; [lia |]. split; [constructor; [lia | exact F] |].
      right. destruct K as [[-> ->] | [n [-> [N [L P]]]]].
      * exists 0%nat. repeat split; [lia | exact C |]. intros m w Hm. lia.
      * exists (S n). repeat split; [lia | exact N | lia |].
        intros [| m] w Hm Hw; [cbn in Hw; injection Hw as <-; lia |].
        apply (P m); [lia | exact Hw].
    + apply Z.ltb_ge in C. destruct (IH _ _ _ _ _ E) as [B [F K]].
      split; [exact B |]. split; [constructor; [lia | exact F] |].
      destruct K as [K | [n [-> [N [L P]]]]]; [now left | right].
      exists (S n). repeat split; [lia | exact N | exact L |].
      intros [| m] w Hm Hw; [cbn in Hw; injection Hw as <-; lia |].
      apply (P m); [lia | exact Hw].
Qed.

(** The dominant frequency is [null] exactly when every bin is below 10
    (the empty spectrum included); otherwise it is the frequency of the
    first bin that holds the maximum of the spectrum. *)
Theorem dominant_frequency_is_first_maximum
        (frequencyData : list Z) (contextSampleRate : option num) (fftSize : num) :
  (detectDominantFrequency frequencyData contextSampleRate fftSize = None
   <-> Forall (fun v => v < 10)%Z frequencyData)
  /\ forall f,
       detectDominantFrequency frequencyData contextSampleRate fftSize = Some f ->
       exists (n : nat) (v : Z),
         nth_error frequencyData n = Some v /\ (10 <= v)%Z
         /\ Forall (fun w => w <= v)%Z frequencyData
         /\ (forall (m : nat) (w : Z),
               (m < n)%nat -> nth_error frequencyData m = Some w -> (w < v)%Z)
         /\ f = (of_Z (Z.of_nat n) * orDefault contextSampleRate (Fin 44100)
                 / (fftSize * Fin 2))%js.
Proof.
  destruct frequencyData as [| v0 rest].
  - split; [split; [constructor | reflexivity] | discriminate].
  - unfold detectDominantFrequency.
    destruct (scanMax (v0 :: rest) 0 0 0) as [k v] eqn:E.
    destruct (scanMax_spec _ _ _ _ _ _ E) as [B [F K]].
    destruct (Z.ltb v 10) eqn:C.
    + apply Z.ltb_lt in C. split; [| discriminate].
      split; [| reflexivity]. intros _.
      eapply Forall_impl; [| exact F]. cbn. intros w Hw. lia.
    + apply Z.ltb_ge in C. split.
      * split; [discriminate |]. intros A. exfalso.
        destruct K as [[_ ->] | [n [_ [N _]]]]; [lia |].
        rewrite Forall_forall in A. apply nth_error_In in N. specialize (A v N). lia.
      * intros f [= <-].
        destruct K as [[_ ->] | [n [-> [N [_ P]]]]]; [lia |].
        exists n, v. rewrite Z.add_0_l. now repeat split.
Qed.

(** ** The chord history *)

Lemma noRepeat_firstn (n : nat) (l : list string) : noRepeat l -> noRepeat (firstn n l).
Proof.
  revert l. induction n as [| n IH]; intros l H; [exact I |].
  destruct l as [| a [| b l]]; [exact I | destruct n; exact I |].
  destruct H as [Hab H]. specialize (IH (b :: l) H).
  destruct n as [| n]; [exact I |].
  change (firstn (S (S n)) (a :: b :: l)) with (a :: firstn (S n) (b :: l)).
  change (firstn (S n) (b :: l)) with (b :: firstn n l) in *.
  split; [exact Hab | exact IH].
Qed.

Lemma firstn_subset {A : Type} (n : nat) (l : list A) (x : A) :
  In x (firstn n l) -> In x l.
Proof.
  revert l. induction n as [| n IH]; intros l H; [contradiction |].
  destruct l as [| a l]; [contradiction |].
  destruct H as [<- | H]; [now left | right; now apply IH].
Qed.

Lemma history_invariant (formatTime : num -> string) (events : list Event) :
  let st := run formatTime events in
  (List.length (chordHistory st) <= 10)%nat
  /\ Forall (fun item => item_name item <> "") (chordHistory st)
  /\ noRepeat (map item_name (chordHistory st))
  /\ match chordHistory st with
     | item :: _ => item_name item = lastDetectedChord st
     | [] => True
     end.
Proof.
  unfold run.
  apply (fold_left_invariant
           (fun st => (List.length (chordHistory st) <= 10)%nat
                      /\ Forall (fun item => item_name item <> "") (chordHistory st)
                      /\ noRepeat (map item_name (chordHistory st))
                      /\ match chordHistory st with
                         | item :: _ => item_name item = lastDetectedChord st
                         | [] => True
                         end)).
  - intros st e _ [L [N [R H]]]. destruct e as [[nm |] now |]; cbn [step].
    + unfold recordChord.
      destruct (negb (String.eqb nm "")) eqn:E1; [| now repeat split].
      destruct (negb (String.eqb nm (lastDetectedChord st))) eqn:E2; [| now repeat split].
      destruct (_ >? _)%js; [| now repeat split].
      cbn [andb chordHistory lastDetectedChord].
      apply negb_true_iff, String.eqb_neq in E1.
      apply negb_true_iff, String.eqb_neq in E2.
      split; [rewrite length_firstn; lia |].
      split.
      * apply Forall_forall. intros item Hi. apply firstn_subset in Hi.
        destruct Hi as [<- | Hi]; [exact E1 |].
        rewrite Forall_forall in N. now apply N.
      * split; [| reflexivity].
        rewrite <- firstn_map. apply noRepeat_firstn. cbn [map item_name].
        destruct (chordHistory st) as [| item items]; [exact I |].
        cbn [map]. split; [| exact R]. rewrite H. exact E2.
    + now repeat split.
    + cbn. repeat split; [lia | constructor].
  - cbn. repeat split; [lia | constructor].
Qed.

(** Whatever the detections and the clearings, the chord history holds at
    most ten entries, none with an empty name, no two neighbours with the
    same name, and its newest entry comes first and carries the name of
    the last chord recorded. *)
Theorem chord_history_invariant (formatTime : num -> string) (events : list Event) :
  let st := run formatTime events in
  (List.length (chordHistory st) <= 10)%nat
  /\ Forall (fun item => item_name item <> "") (chordHistory st)
  /\ noRepeat (map item_name (chordHistory st))
  /\ match chordHistory st with
     | item :: _ => item_name item = lastDetectedChord st
     | [] => True
     end.
Proof. exact (history_invariant formatTime events). Qed.

(** ** The amplitude threshold *)

Lemma threshold_at_least_15 (minBin bin : num) :
  getThreshold minBin bin = NaN \/ getThreshold minBin bin = PInf
  \/ exists t, getThreshold minBin bin = Fin t /\ 15 <= t.
Proof.
  unfold getThreshold.
  destruct (neg bin / (minBin * Fin 2))%js as [x | | |]; cbn [Math_exp mul add].
  - right. right. eexists. split; [reflexivity |]. pose proof (exp_pos x). lra.
  - right. left. unfold signed_inf. now rewrite Rltb_true by lra.
  - right. right. eexists. split; [reflexivity |]. lra.
  - now left.
Qed.

Lemma isCandidate_weak (smoothedData : list Z) (minBin : num) (i : Z) :
  (forall a, get smoothedData i = Some a -> (a <= 15)%Z) ->
  isCandidate smoothedData minBin i = false.
Proof.
  intros H. rewrite isCandidate_localMax.
  replace (_ >? _)%js with false; [reflexivity |]. symmetry.
  destruct (get smoothedData i) as [a |];
    [| cbn [of_elem gtb]; now destruct (getThreshold minBin (of_Z i))].
  specialize (H a eq_refl). cbn [of_elem of_Z gtb].
  destruct (threshold_at_least_15 minBin (of_Z i)) as [E | [E | [t [E T]]]]; rewrite E;
    try reflexivity.
  cbn [ltb]. apply Rltb_false.
  assert (IZR a <= 15) by now apply IZR_le. lra.
Qed.

Lemma findFrequencyPeaks_quiet
      (frequencyData : list Z) (sampleRate fftSize peakCount : num) :
  Forall (fun v => 0 <= v <= 15)%Z frequencyData ->
  findFrequencyPeaks frequencyData sampleRate fftSize peakCount = [].
Proof.
  intros H. unfold findFrequencyPeaks, firstPass.
  destruct (Math_floor _) as [lo | | |]; try reflexivity.
  destruct (Math_min _ _) as [hi | | |]; try reflexivity.
  replace (fold_left _ _ []) with (@nil Peak); [reflexivity |]. symmetry.
  apply (fold_left_invariant (fun peaks => peaks = [])); [| reflexivity].
  intros peaks i _ ->. unfold candidateStep. rewrite isCandidate_weak; [reflexivity |].
  intros a G. apply get_In in G. unfold smooth in G.
  apply in_map_iff in G as [j [<- _]].
  apply (smoothing_bound frequencyData 15 j H). lia.
Qed.

(** A spectrum whose bins are all at most 15 has no candidate peak, at any
    resolution: the amplitude threshold never goes below 15.  The peak
    finder returns nothing and [detectChord] the empty chord. *)
Theorem quiet_spectrum_has_no_peak
        (frequencyData : list Z) (sampleRate fftSize peakCount : num) :
  Forall (fun v => 0 <= v <= 15)%Z frequencyData ->
  findFrequencyPeaks frequencyData sampleRate fftSize peakCount = []
  /\ detectChord frequencyData sampleRate fftSize = Ok emptyChord.
Proof.
  intros H. split; [now apply findFrequencyPeaks_quiet |].
  unfold detectChord. destruct (isDataMostlySilent frequencyData); [reflexivity |].
  now rewrite findFrequencyPeaks_quiet.
Qed.

Lemma quiet_spectrum_has_no_peak_witness :
  findFrequencyPeaks (repeat 15%Z 1024) sampleRate44k fftSize2048 defaultPeakCount = []
  /\ detectChord (repeat 15%Z 1024) sampleRate44k fftSize2048 = Ok emptyChord.
Proof.
  apply quiet_spectrum_has_no_peak.
  apply Forall_forall. intros v Hv. apply repeat_spec in Hv. lia.
Defined.

(** ** The formula of a detected chord *)

Lemma table_formula_not_empty (suffix : string) (formula : list string) :
  In (suffix, formula) CHORD_FORMULAS -> join "-" formula <> "".
Proof.
  unfold CHORD_FORMULAS. cbn [In].
  intros H. repeat (destruct H as [[= <- <-] | H]; [discriminate |]). contradiction.
Qed.

Lemma identifyChord_formula_not_empty (first second : ChordNote) (rest : list ChordNote)
      (m : ChordMatch) :
  identifyChord (first :: second :: rest) = Ok m -> match_formula m <> "".
Proof.
  intros E.
  destruct (identifyChord_shape_cases first second rest) as [K | [root [suffix [formula [_ [Hf K]]]]]];
    rewrite K in E; injection E as <-.
  - discriminate.
  - cbn [chordOf match_formula snd]. now apply (table_formula_not_empty suffix).
Qed.

Lemma detectChord_notched :
  detectChord (notchedPeak 12) sampleRate44k fftSize2048
  = Ok {| chord_name := name (findClosestNote (Fin (20 * binSize44k)));
          chord_formula := "";
          notes := [findClosestNote (Fin (20 * binSize44k))];
          frequencies := [Fin (20 * binSize44k)] |}.
Proof.
  unfold detectChord. rewrite notchedPeak_loud.
  rewrite findFrequencyPeaks_notched by now right. reflexivity.
Qed.

Lemma identifyChord_formula_cases (first second : ChordNote) (rest : list ChordNote)
      (m : ChordMatch) :
  identifyChord (first :: second :: rest) = Ok m ->
  match_formula m = "1"
  \/ exists suffix formula,
       In (suffix, formula) CHORD_FORMULAS /\ match_formula m = join "-" formula.
Proof.
  intros E.
  destruct (identifyChord_shape_cases first second rest)
    as [K | [root [suffix [formula [_ [Hf K]]]]]];
    rewrite K in E; injection E as <-.
  - now left.
  - right. exists suffix, formula. now split.
Qed.

Lemma identifyChord_undefined_pair :
  identifyChord [findClosestNote NaN; findClosestNote NaN]
  = Ok {| match_name := ""; match_formula := "1" |}.
Proof.
  rewrite findClosestNote_NaN. unfold identifyChord.
  replace (search _) with initialBest by reflexivity.
  unfold initialBest. cbn [gtb ltb]. now rewrite Rltb_false by lra.
Qed.

Lemma detectChord_clipped :
  detectChord clippedPeaks sampleRate44k fftSize2048
  = Ok {| chord_name := Some "";
          chord_formula := "1";
          notes := [findClosestNote NaN; findClosestNote NaN];
          frequencies := [NaN; NaN] |}.
Proof.
  unfold detectChord. rewrite clippedPeaks_loud, findFrequencyPeaks_clipped.
  cbn [List.length Nat.ltb Nat.leb map]. now rewrite identifyChord_undefined_pair.
Qed.

(** A detected chord has at most six notes, and its formula is empty
    exactly when fewer than two peaks were found (silence included): with
    two peaks or more the formula is "1" or the formula of an entry of the
    chord table, joined by "-". *)
Theorem detected_chord_formula
        (frequencyData : list Z) (sampleRate fftSize : num) (chord : Chord) :
  detectChord frequencyData sampleRate fftSize = Ok chord ->
  (List.length (notes chord) <= 6)%nat
  /\ (chord_formula chord = "" <-> (List.length (frequencies chord) < 2)%nat)
  /\ ((2 <= List.length (frequencies chord))%nat ->
      chord_formula chord = "1"
      \/ exists suffix formula,
           In (suffix, formula) CHORD_FORMULAS
           /\ chord_formula chord = join "-" formula).
Proof.
  unfold detectChord.
  destruct (isDataMostlySilent frequencyData).
  - intros [= <-]. cbn. split; [lia |]. split; [split; [lia | reflexivity] | lia].
  - pose proof (findFrequencyPeaks_length_bound frequencyData sampleRate fftSize) as B.
    set (peaks := findFrequencyPeaks frequencyData sampleRate fftSize defaultPeakCount) in *.
    destruct (Nat.ltb (List.length peaks) 2) eqn:L.
    + intros [= <-]. cbn [notes frequencies chord_formula]. rewrite length_map.
      apply Nat.ltb_lt in L. split; [exact B |].
      split; [split; [intros _; exact L | reflexivity] | lia].
    + apply Nat.ltb_ge in L.
      destruct peaks as [| p1 [| p2 peaks]]; [cbn in L; lia | cbn in L; lia |].
      cbn [map].
      destruct (identifyChord _) as [m |] eqn:E; [| discriminate].
      intros [= <-]. cbn [notes frequencies chord_formula].
      split; [cbn [List.length] in *; now rewrite length_map |].
      split.
      * split.
        -- intros F. exfalso. now apply (identifyChord_formula_not_empty _ _ _ _ E).
        -- cbn [List.length]. lia.
      * intros _. exact (identifyChord_formula_cases _ _ _ _ E).
Qed.

Lemma detected_chord_formula_witness :
  ((List.length [findClosestNote (Fin (20 * binSize44k))] <= 6)%nat
   /\ ("" = "" <-> (List.length [Fin (20 * binSize44k)] < 2)%nat))
  /\ ((2 <= List.length [NaN; NaN])%nat ->
      "1" = "1"
      \/ exists suffix formula,
           In (suffix, formula) CHORD_FORMULAS /\ "1" = join "-" formula).
Proof.
  split.
  - destruct (detected_chord_formula (notchedPeak 12) sampleRate44k fftSize2048 _
                detectChord_notched) as [A [B _]].
    split; [exact A | exact B].
  - exact (proj2 (proj2 (detected_chord_formula clippedPeaks sampleRate44k fftSize2048 _
                           detectChord_clipped))).
Defined.

(** ** The note mapper is monotone *)

Lemma halfSteps_monotone (r1 r2 : R) :
  0 < r1 -> r1 <= r2 ->
  (Zfloor (12 * (ln (r1 / 440) / ln 2) + 1 / 2)
   <= Zfloor (12 * (ln (r2 / 440) / ln 2) + 1 / 2))%Z.
Proof.
  intros H1 H. pose proof ln2_pos as L. apply Zfloor_le.
  assert (Q : ln (r1 / 440) <= ln (r2 / 440)).
  { apply ln_le_mono; [apply Rdiv_lt_0_compat; lra |].
    unfold Rdiv. apply Rmult_le_compat_r; lra. }
  assert (D : ln (r1 / 440) / ln 2 <= ln (r2 / 440) / ln 2).
  { unfold Rdiv. apply Rmult_le_compat_r; [| exact Q].
    left. now apply Rinv_0_lt_compat. }
  lra.
Qed.

(** A higher frequency never gets a lower note: the retuned frequency and
    the octave that the note mapper returns are nondecreasing in the
    frequency. *)
Theorem closestNote_monotone (r1 r2 : R) :
  0 < r1 -> r1 <= r2 ->
  (frequency (findClosestNote (Fin r1)) <=? frequency (findClosestNote (Fin r2)))%js = true
  /\ (octave (findClosestNote (Fin r1)) <=? octave (findClosestNote (Fin r2)))%js = true.
Proof.
  intros H1 H. rewrite !findClosestNote_fin by lra. cbn [frequency octave leb].
  pose proof (halfSteps_monotone r1 r2 H1 H) as M.
  set (n1 := Zfloor (12 * (ln (r1 / 440) / ln 2) + 1 / 2)) in *.
  set (n2 := Zfloor (12 * (ln (r2 / 440) / ln 2) + 1 / 2)) in *.
  split; apply Rleb_true.
  - apply Rmult_le_compat_l; [lra |].
    apply Rle_Rpower; [left; exact halfStepRatio_gt_1 | now apply IZR_le].
  - apply IZR_le. apply Z.div_le_mono; lia.
Qed.

Lemma closestNote_monotone_witness :
  (frequency (findClosestNote (Fin 430)) <=? frequency (findClosestNote (Fin 450)))%js = true.
Proof. apply (closestNote_monotone 430 450); lra. Defined.

Lemma strongest_peak_survives_witness :
  findFrequencyPeaks (notchedPeak 12) sampleRate44k fftSize2048 defaultPeakCount = []
  <-> firstPass (notchedPeak 12) (sampleRate44k / fftSize2048)%js
                (Math_floor (Fin 80 / (sampleRate44k / fftSize2048))%js)
                (Math_floor (Fin 1200 / (sampleRate44k / fftSize2048))%js) = [].
Proof.
  exact (proj1 (strongest_peak_survives (notchedPeak 12) sampleRate44k fftSize2048)).
Defined.

Lemma dominant_frequency_is_first_maximum_witness :
  detectDominantFrequency [3; 40; 12; 40]%Z (Some (Fin 48000)) (Fin 2048) = None
  <-> Forall (fun v => v < 10)%Z [3; 40; 12; 40]%Z.
Proof.
  exact (proj1 (dominant_frequency_is_first_maximum [3; 40; 12; 40]%Z
                  (Some (Fin 48000)) (Fin 2048))).
Defined.
